(** * Food-order backend: the services' request handlers and their properties

    A shallow embedding of the Express handlers of the repository
    (api-gateway, auth-service, restaurant-service, order-service,
    payment-service) and of the library calls they make.

    Conventions.
    - A handler is modelled from the point where Express calls it, with the
      [req] object it receives; an [async] handler is a program in the
      monad [Prog]: every [await]ed library call is one operation, a
      rejected promise is a thrown [JsError] (no handler has a try/catch).
      Where [express.json()] is mounted before the handler, the app is
      modelled with the parser's verdict in front of it.
    - The stores behind the library calls (Redis, Postgres, the BullMQ
      queue) are explicit state; each service has its own [World].
    - JS strings are modelled as [string] (code units below 256). *)

From Stdlib Require Import ZArith Lia Ascii String.
From stdpp Require Import base option strings list gmap.

Open Scope string_scope.
Open Scope Z_scope.

(** ** JSON text, as produced by [JSON.stringify] and read by [JSON.parse] *)

Module JSON.

(** The JS values that occur in the services' payloads: query rows are
    arrays of objects whose fields are strings or null. *)
#[local] Unset Elimination Schemes.
Inductive JsValue : Type :=
| JNull
| JString (s : string)
| JArray (items : list JsValue)
| JObject (fields : list (string * JsValue)).
#[local] Set Elimination Schemes.

Definition dquote : ascii := "034"%char.
Definition backslash : ascii := "\"%char.

Definition hex_digit (n : nat) : ascii :=
  match n with
  | 0%nat => "0" | 1%nat => "1" | 2%nat => "2" | 3%nat => "3"
  | 4%nat => "4" | 5%nat => "5" | 6%nat => "6" | 7%nat => "7"
  | 8%nat => "8" | 9%nat => "9" | 10%nat => "a" | 11%nat => "b"
  | 12%nat => "c" | 13%nat => "d" | 14%nat => "e" | _ => "f"
  end%char.

Definition hex_value (c : ascii) : option nat :=
  let n := nat_of_ascii c in
  if (48 <=? n)%nat && (n <=? 57)%nat then Some (n - 48)%nat
  else if (97 <=? n)%nat && (n <=? 102)%nat then Some (n - 87)%nat
  else if (65 <=? n)%nat && (n <=? 70)%nat then Some (n - 55)%nat
  else None.

(** QuoteJSONString, one code unit: the two-character escapes, [\u00xx]
    for the other control characters, the character itself otherwise. *)
Definition quote_char (c : ascii) : string :=
  let n := nat_of_ascii c in
  if Ascii.eqb c dquote then String backslash (String dquote "")
  else if Ascii.eqb c backslash then String backslash (String backslash "")
  else if (n =? 8)%nat then "\b"
  else if (n =? 9)%nat then "\t"
  else if (n =? 10)%nat then "\n"
  else if (n =? 12)%nat then "\f"
  else if (n =? 13)%nat then "\r"
  else if (n <? 32)%nat then
    "\u00" +:+ String (hex_digit (n / 16)) (String (hex_digit (n mod 16)) "")
  else String c "".

Fixpoint quote_chars (s : string) : string :=
  match s with
  | "" => ""
  | String c s' => quote_char c +:+ quote_chars s'
  end.

Definition quote (s : string) : string :=
  String dquote (quote_chars s +:+ String dquote "").

Fixpoint join (sep : string) (parts : list string) : string :=
  match parts with
  | [] => ""
  | [p] => p
  | p :: ps => p +:+ sep +:+ join sep ps
  end.

(** [JSON.stringify] without indentation. *)
Fixpoint stringify (v : JsValue) : string :=
  match v with
  | JNull => "null"
  | JString s => quote s
  | JArray items => "[" +:+ join "," (map stringify items) +:+ "]"
  | JObject fields =>
      "{" +:+ join "," (map (fun kv => quote kv.1 +:+ ":" +:+ stringify kv.2) fields)
          +:+ "}"
  end.

(** The decoded character of a two-character escape. *)
Definition unescape (c : ascii) : option ascii :=
  let n := nat_of_ascii c in
  if Ascii.eqb c dquote then Some dquote
  else if Ascii.eqb c backslash then Some backslash
  else if Ascii.eqb c "/" then Some "/"%char
  else if Ascii.eqb c "b" then Some (ascii_of_nat 8)
  else if Ascii.eqb c "t" then Some (ascii_of_nat 9)
  else if Ascii.eqb c "n" then Some (ascii_of_nat 10)
  else if Ascii.eqb c "f" then Some (ascii_of_nat 12)
  else if Ascii.eqb c "r" then Some (ascii_of_nat 13)
  else None.

(** The characters of a string literal after its opening quote, up to and
    including the closing quote; the decoded string and the text left.
    A [\uXXXX] escape above 255 is outside the model's strings. *)
Fixpoint parse_chars (s : string) : option (string * string) :=
  match s with
  | "" => None
  | String c s1 =>
      if Ascii.eqb c dquote then Some ("", s1)
      else if Ascii.eqb c backslash then
        match s1 with
        | "" => None
        | String e s2 =>
            if Ascii.eqb e "u" then
              match s2 with
              | String h1 (String h2 (String h3 (String h4 s3))) =>
                  match hex_value h1, hex_value h2, hex_value h3, hex_value h4 with
                  | Some 0%nat, Some 0%nat, Some d3, Some d4 =>
                      match parse_chars s3 with
                      | Some (t, rest) =>
                          Some (String (ascii_of_nat (16 * d3 + d4)) t, rest)
                      | None => None
                      end
                  | _, _, _, _ => None
                  end
              | _ => None
              end
            else
              match unescape e with
              | Some d =>
                  match parse_chars s2 with
                  | Some (t, rest) => Some (String d t, rest)
                  | None => None
                  end
              | None => None
              end
        end
      else if (nat_of_ascii c <? 32)%nat then None
      else
        match parse_chars s1 with
        | Some (t, rest) => Some (String c t, rest)
        | None => None
        end
  end.

Section Sequences.
Context {A : Type} (parse_one : string -> option (A * string)) (close : ascii).

(** The elements after an opening bracket, at least one: an element,
    then a comma and the rest, or the closing bracket. *)
Fixpoint parse_seq (fuel : nat) (s : string) : option (list A * string) :=
  match fuel with
  | O => None
  | S fuel' =>
      match parse_one s with
      | Some (x, String c rest) =>
          if Ascii.eqb c "," then
            match parse_seq fuel' rest with
            | Some (xs, rest') => Some (x :: xs, rest')
            | None => None
            end
          else if Ascii.eqb c close then Some ([x], rest)
          else None
      | _ => None
      end
  end.
End Sequences.

Definition parse_member (parse_value : string -> option (JsValue * string)) (s : string)
  : option ((string * JsValue) * string) :=
  match s with
  | String q s1 =>
      if Ascii.eqb q dquote then
        match parse_chars s1 with
        | Some (k, String c s2) =>
            if Ascii.eqb c ":" then
              match parse_value s2 with
              | Some (v, rest) => Some ((k, v), rest)
              | None => None
              end
            else None
        | _ => None
        end
      else None
  | "" => None
  end.

(** One JSON value at the head of [s], and the text after it.  No
    insignificant whitespace, numbers or booleans: [stringify] above emits
    none, and the services parse only what they stringified. *)
Fixpoint parse_value (fuel : nat) (s : string) : option (JsValue * string) :=
  match fuel with
  | O => None
  | S fuel' =>
      match s with
      | "" => None
      | String c s1 =>
          if Ascii.eqb c "n" then
            match s1 with
            | String "u" (String "l" (String "l" rest)) => Some (JNull, rest)
            | _ => None
            end
          else if Ascii.eqb c dquote then
            match parse_chars s1 with
            | Some (t, rest) => Some (JString t, rest)
            | None => None
            end
          else if Ascii.eqb c "[" then
            match s1 with
            | String c' rest =>
                if Ascii.eqb c' "]" then Some (JArray [], rest)
                else
                  match parse_seq (parse_value fuel') "]" fuel' s1 with
                  | Some (items, rest') => Some (JArray items, rest')
                  | None => None
                  end
            | "" => None
            end
          else if Ascii.eqb c "{" then
            match s1 with
            | String c' rest =>
                if Ascii.eqb c' "}" then Some (JObject [], rest)
                else
                  match parse_seq (parse_member (parse_value fuel')) "}" fuel' s1 with
                  | Some (fields, rest') => Some (JObject fields, rest')
                  | None => None
                  end
            | "" => None
            end
          else None
      end
  end.

(** The number of values in [v], itself included: fuel enough to parse
    its text. *)
Fixpoint jsize (v : JsValue) : nat :=
  match v with
  | JNull | JString _ => 1
  | JArray items => S (list_sum (map jsize items))
  | JObject fields => S (list_sum (map (fun kv => jsize kv.2) fields))
  end.

(** No value's text starts with a closing bracket or brace. *)
Definition opens_value (s : string) : Prop :=
  match s with
  | String c _ => Ascii.eqb c "]" = false /\ Ascii.eqb c "}" = false
  | "" => False
  end.

(** [JSON.parse]: [None] stands for the SyntaxError it throws. *)
Definition parse (s : string) : option JsValue :=
  match parse_value (S (String.length s)) s with
  | Some (v, "") => Some v
  | _ => None
  end.

End JSON.

Export JSON.

(** ** Handlers as programs *)

(** The errors a library call rejects with (or a synchronous call throws). *)
Inductive JsError : Type :=
| DbError        (* db.query rejected *)
| RedisError     (* a node-redis command rejected *)
| QueueError     (* orderQueue.add rejected *)
| SyntaxError    (* JSON.parse *)
| TypeError      (* property access on undefined *)
| BcryptError    (* bcryptjs: Illegal arguments *)
| JwtError.      (* jsonwebtoken: secretOrPrivateKey must have a value *)

(** What a handler sends: [res.json(v)] or [res.sendStatus(code)]. *)
Inductive Response : Type :=
| res_json (body : JsValue)
| res_sendStatus (code : Z).

(** How a call of an [async] handler ends: it sent a response and its
    promise resolved, or its promise rejected with the error thrown. *)
Inductive Outcome : Type :=
| Returned (r : Response)
| Threw (e : JsError).

(** A handler body over the library operations [E]: [Do op k] calls
    [op] (an [await] point for asynchronous calls) and continues with [k]
    on its result. *)
Inductive Prog (E : Type -> Type) (R : Type) : Type :=
| Ret (r : R)
| Throw (e : JsError)
| Do {X : Type} (op : E X) (k : X -> Prog E R).

Arguments Ret {E R} r.
Arguments Throw {E R} e.
Arguments Do {E R X} op k.

Fixpoint bind {E : Type -> Type} {A B : Type} (p : Prog E A) (f : A -> Prog E B) : Prog E B :=
  match p with
  | Ret a => f a
  | Throw e => Throw e
  | Do op k => Do op (fun x => bind (k x) f)
  end.

Definition call {E : Type -> Type} {X : Type} (op : E X) : Prog E X := Do op Ret.

#[export] Instance prog_ret {E} : MRet (Prog E) := fun _ a => Ret a.
#[export] Instance prog_bind {E} : MBind (Prog E) := fun _ _ f p => bind p f.

Section Running.
Context {E : Type -> Type} {W : Type}.
(** [perform w op]: the state after the call, and its result or the
    error it rejects with. *)
Variable perform : forall X, W -> E X -> W * (JsError + X).

(** One call of a handler, run to its end with nothing in between. *)
Fixpoint run (p : Prog E Response) (w : W) : W * Outcome :=
  match p with
  | Ret r => (w, Returned r)
  | Throw e => (w, Threw e)
  | Do op k =>
      match perform _ w op with
      | (w', inr x) => run (k x) w'
      | (w', inl e) => (w', Threw e)
      end
  end.

(** Requests in flight.  Node runs one handler at a time between two
    [await]s, so a step of the server runs one pending call of one
    request; a schedule names the request that moves at each step. *)
Definition step_thread (w : W) (p : Prog E Response) : W * Prog E Response :=
  match p with
  | Do op k =>
      match perform _ w op with
      | (w', inr x) => (w', k x)
      | (w', inl e) => (w', Throw e)
      end
  | _ => (w, p)
  end.

Definition step_pool (st : W * list (Prog E Response)) (i : nat)
  : W * list (Prog E Response) :=
  match st.2 !! i with
  | Some p => let '(w', p') := step_thread st.1 p in (w', <[i := p']> st.2)
  | None => st
  end.

Definition run_schedule (sched : list nat) (st : W * list (Prog E Response))
  : W * list (Prog E Response) :=
  foldl step_pool st sched.

Definition finished (p : Prog E Response) : option Outcome :=
  match p with
  | Ret r => Some (Returned r)
  | Throw e => Some (Threw e)
  | Do _ _ => None
  end.
End Running.

(** ** What Postgres stores *)

(** A TEXT value cannot hold the code unit 0: Postgres refuses the
    statement (invalid byte sequence for encoding "UTF8": 0x00) and
    [db.query] rejects. *)
Fixpoint has_nul (s : string) : bool :=
  match s with
  | "" => false
  | String c s' => Ascii.eqb c "000" || has_nul s'
  end.

(** A parameter bound to a TEXT column: a string, or undefined, which
    node-postgres sends as NULL. *)
Definition text_ok (v : option string) : bool :=
  match v with
  | Some s => negb (has_nul s)
  | None => true
  end.

(** ** express.json() *)

(** The JSON body parser is the first middleware of the gateway and of the
    payment service.  It calls [next()] (no body, a body that is not
    JSON, or well-formed JSON within the limit), or it fails the request
    with an error, and Express answers with the error's status. *)
Inductive BodyFault : Type :=
| Malformed      (* the JSON does not parse *)
| TooLarge       (* the body is over the limit (100kb) *)
| Unsupported.   (* unsupported charset or content encoding *)

Definition fault_status (f : BodyFault) : Z :=
  match f with
  | Malformed => 400
  | TooLarge => 413
  | Unsupported => 415
  end.

Inductive BodyCheck : Type :=
| Accepted
| Rejected (f : BodyFault).

(** ** restaurant-service *)

Module Restaurant.

(** A row of [restaurants(id UUID, name TEXT)]; [name] is NULL when the
    request body had no [name]. *)
Record Row : Type := { row_id : string; row_name : option string }.

(** The object node-postgres builds for a row, and [result.rows]. *)
Definition row_value (r : Row) : JsValue :=
  JObject [("id", JString (row_id r));
           ("name", match row_name r with Some n => JString n | None => JNull end)].

Definition rows_value (rows : list Row) : JsValue := JArray (map row_value rows).

Inductive Sql : Type :=
| CreateRestaurants                                   (* CREATE TABLE IF NOT EXISTS restaurants(...) *)
| InsertRestaurant (id : string) (name : option string) (* INSERT INTO restaurants VALUES($1,$2) *)
| SelectRestaurants.                                  (* SELECT * FROM restaurants *)

(** The library calls of the two handlers. *)
Inductive Op : Type -> Type :=
| ClientGet (key : string) : Op (option string)
| ClientSetEx (key : string) (seconds : Z) (value : string) : Op unit
| DbQuery (q : Sql) : Op (list Row)
| Uuid : Op string.

Inductive Event : Type :=
| EvClientGet (key : string)
| EvClientSetEx (key : string) (seconds : Z) (value : string)
| EvDbQuery (q : Sql)
| EvUuid.

(** A key of the Redis server: its value, when it was set, and the
    expiry given to SETEX, in seconds. *)
Record CacheEntry : Type := { ce_value : string; ce_inserted : Z; ce_ttl : Z }.

Record World : Type := {
  now : Z;                              (* the clock, in seconds *)
  redis : gmap string CacheEntry;
  redis_up : bool;                      (* Redis serves the commands; false: it
                                           answers them with an error reply *)
  db_up : bool;                         (* Postgres answers the queries *)
  restaurants : option (list Row);      (* None: the table does not exist *)
  uuid_of : nat -> string;              (* the values uuid() will return *)
  uuid_next : nat;
  trace : list Event                    (* every library call made, oldest first *)
}.

Definition log (ev : Event) (w : World) : World :=
  {| now := now w; redis := redis w; redis_up := redis_up w; db_up := db_up w;
     restaurants := restaurants w; uuid_of := uuid_of w; uuid_next := uuid_next w;
     trace := trace w ++ [ev] |}.

Definition set_redis (m : gmap string CacheEntry) (w : World) : World :=
  {| now := now w; redis := m; redis_up := redis_up w; db_up := db_up w;
     restaurants := restaurants w; uuid_of := uuid_of w; uuid_next := uuid_next w;
     trace := trace w |}.

Definition set_restaurants (t : option (list Row)) (w : World) : World :=
  {| now := now w; redis := redis w; redis_up := redis_up w; db_up := db_up w;
     restaurants := t; uuid_of := uuid_of w; uuid_next := uuid_next w;
     trace := trace w |}.

Definition bump_uuid (w : World) : World :=
  {| now := now w; redis := redis w; redis_up := redis_up w; db_up := db_up w;
     restaurants := restaurants w; uuid_of := uuid_of w; uuid_next := S (uuid_next w);
     trace := trace w |}.

(** Modelled from the spec: the expiry rule of the Redis server, which is
    not part of the repository.  An entry is served only while
    [now < insertion + TTL]; an expired entry is logically absent even if
    still physically present. *)
Definition live (t : Z) (e : CacheEntry) : bool := t <? ce_inserted e + ce_ttl e.

Definition redis_get (w : World) (key : string) : option string :=
  match redis w !! key with
  | Some e => if live (now w) e then Some (ce_value e) else None
  | None => None
  end.

Definition redis_setEx (w : World) (key : string) (seconds : Z) (value : string)
  : gmap string CacheEntry :=
  <[key := {| ce_value := value; ce_inserted := now w; ce_ttl := seconds |}]> (redis w).

(** [db.query]: it rejects when Postgres does not answer, when the table
    does not exist, and when the name to insert is not a TEXT value. *)
Definition db_query (w : World) (q : Sql) : World * (JsError + list Row) :=
  if db_up w then
    match q with
    | CreateRestaurants =>
        (set_restaurants (Some (default [] (restaurants w))) w, inr [])
    | InsertRestaurant id name =>
        match restaurants w with
        | Some rows =>
            if text_ok name then
              (set_restaurants (Some (rows ++ [{| row_id := id; row_name := name |}])%list) w,
               inr [])
            else (w, inl DbError)
        | None => (w, inl DbError)
        end
    | SelectRestaurants =>
        match restaurants w with
        | Some rows => (w, inr rows)
        | None => (w, inl DbError)
        end
    end
  else (w, inl DbError).

(** The library calls.  A Redis command is served, or Redis answers it
    with an error reply and the command's promise rejects inside the
    handler.  (A connection that fails or is lost is another matter: the
    client has no 'error' listener and [client.connect()] is not awaited,
    so the process exits, and no handler runs in it.) *)
Definition perform (X : Type) (w : World) (op : Op X) : World * (JsError + X) :=
  match op in Op X return World * (JsError + X) with
  | ClientGet key =>
      let w1 := log (EvClientGet key) w in
      if redis_up w then (w1, inr (redis_get w key)) else (w1, inl RedisError)
  | ClientSetEx key seconds value =>
      let w1 := log (EvClientSetEx key seconds value) w in
      if redis_up w then (set_redis (redis_setEx w key seconds value) w1, inr tt)
      else (w1, inl RedisError)
  | DbQuery q => db_query (log (EvDbQuery q) w) q
  | Uuid =>
      let w1 := log EvUuid w in
      (bump_uuid w1, inr (uuid_of w (uuid_next w)))
  end.

(** [if (cache)]: null and the empty string are falsy. *)
Definition truthy (cache : option string) : bool :=
  match cache with
  | Some s => negb (String.eqb s "")
  | None => false
  end.

(** [req.body] of POST /restaurants, as far as the handler reads it. *)
Record PostBody : Type := { body_name : option string }.

(** app.post("/restaurants") *)
Definition post_restaurants (req : PostBody) : Prog Op Response :=
  _ ← call (DbQuery CreateRestaurants);
  id ← call Uuid;
  _ ← call (DbQuery (InsertRestaurant id (body_name req)));
  Ret (res_json (JObject [("id", JString id)])).

(** app.get("/restaurants") *)
Definition get_restaurants : Prog Op Response :=
  cache ← call (ClientGet "restaurants");
  if truthy cache then
    match JSON.parse (default "" cache) with
    | Some v => Ret (res_json v)
    | None => Throw SyntaxError
    end
  else
    result ← call (DbQuery SelectRestaurants);
    _ ← call (ClientSetEx "restaurants" 60 (JSON.stringify (rows_value result)));
    Ret (res_json (rows_value result)).

Definition handle (p : Prog Op Response) (w : World) : World * Outcome :=
  run perform p w.

(** The state a miss leaves when the query returned [rows]: the three
    calls logged and the rows' text stored for 60 seconds from now. *)
Definition stored (w : World) (rows : list Row) : World :=
  set_redis (redis_setEx w "restaurants" 60 (JSON.stringify (rows_value rows)))
    (log (EvClientSetEx "restaurants" 60 (JSON.stringify (rows_value rows)))
       (log (EvDbQuery SelectRestaurants) (log (EvClientGet "restaurants") w))).

(** The write of one request after its query returned [rows]. *)
Definition store (rows : list Row) (w : World) : World :=
  set_redis (redis_setEx w "restaurants" 60 (JSON.stringify (rows_value rows)))
    (log (EvClientSetEx "restaurants" 60 (JSON.stringify (rows_value rows))) w).

(** The state with [key] removed from Redis. *)
Definition without (key : string) (w : World) : World :=
  set_redis (delete key (redis w)) w.

(** The rest of [get_restaurants] after a miss, before and after the
    query. *)
Definition store_and_respond (result : list Row) : Prog Op Response :=
  _ ← call (ClientSetEx "restaurants" 60 (JSON.stringify (rows_value result)));
  Ret (res_json (rows_value result)).

Definition load_and_store : Prog Op Response :=
  result ← call (DbQuery SelectRestaurants);
  store_and_respond result.

(** Where a request of the pool stands, and how many loads it can
    still make. *)
Inductive stage : Prog Op Response -> nat -> Prop :=
| stage_start : stage get_restaurants 1
| stage_load : stage load_and_store 1
| stage_store result : stage (store_and_respond result) 0
| stage_ret r : stage (Ret r) 0
| stage_throw e : stage (Throw e) 0.

(** The loader of the cache-aside read is the SELECT; how often a trace
    ran it. *)
Definition is_load (ev : Event) : bool :=
  match ev with
  | EvDbQuery SelectRestaurants => true
  | _ => false
  end.

Definition loader_calls (tr : list Event) : nat := length (filter is_load tr).

(** What the service's surroundings do between two of its calls: the
    clock moves forward, Redis begins or ceases to refuse commands and
    Postgres to answer queries, the shared database changes under other
    writers, and so do the other keys of the shared Redis (the queue's).
    The key "restaurants" is written by this service only. *)
Record env_step (w w' : World) : Prop := {
  env_now : now w <= now w';
  env_redis : redis w' !! "restaurants" = redis w !! "restaurants";
  env_trace : trace w' = trace w
}.

(** The requests the service runs: a call of one of its two handlers, at
    any point of its course. *)
Inductive request : Prog Op Response -> Prop :=
| request_get : request get_restaurants
| request_post req : request (post_restaurants req)
| request_step w t : request t -> request (step_thread perform w t).2.

(** The states the service can be in: from a start without the key
    "restaurants", by the calls of its requests, in any order, and by its
    surroundings. *)
Inductive reachable : World -> Prop :=
| reach_init w : redis w !! "restaurants" = None -> reachable w
| reach_env w w' : reachable w -> env_step w w' -> reachable w'
| reach_step w t : reachable w -> request t -> reachable (step_thread perform w t).1.

(** A call that writes to Redis, if at all, the text of rows under
    "restaurants" for 60 seconds; a program all of whose calls are such. *)
Definition writes_rows {X : Type} (op : Op X) : Prop :=
  match op with
  | ClientSetEx key seconds value =>
      key = "restaurants" /\ seconds = 60 /\
      exists rows, value = JSON.stringify (rows_value rows)
  | _ => True
  end.

Fixpoint safe (t : Prog Op Response) : Prop :=
  match t with
  | Ret _ | Throw _ => True
  | Do op k => writes_rows op /\ forall x, safe (k x)
  end.

(** What the service's writes keep true of Redis: the key "restaurants",
    when present, was set for 60 seconds to the text of some query
    result. *)
Definition cache_wf (w : World) : Prop :=
  forall e, redis w !! "restaurants" = Some e ->
    ce_ttl e = 60 /\ exists rows, ce_value e = JSON.stringify (rows_value rows).

(** The clock moved to [t], nothing else changed. *)
Definition at_time (t : Z) (w : World) : World :=
  {| now := t; redis := redis w; redis_up := redis_up w; db_up := db_up w;
     restaurants := restaurants w; uuid_of := uuid_of w; uuid_next := uuid_next w;
     trace := trace w |}.

(** [n] GET /restaurants requests in flight, none started. *)
Definition cold_pool (n : nat) : list (Prog Op Response) := replicate n get_restaurants.

Definition run_pool (sched : list nat) (st : World * list (Prog Op Response))
  : World * list (Prog Op Response) :=
  run_schedule perform sched st.

(** Where a request that finds the key cold stands after [c] of its calls,
    the query returning [rows]: it has three calls to make, [client.get],
    [db.query] and [client.setEx]. *)
Definition after_calls (rows : list Row) (c : nat) : Prog Op Response :=
  match c with
  | 0%nat => get_restaurants
  | 1%nat => load_and_store
  | 2%nat => store_and_respond rows
  | _ => Ret (res_json (rows_value rows))
  end.

(** Whether a request that has made [c] calls has its query still to run. *)
Definition to_load (c : nat) : nat := if (c <? 2)%nat then 1 else 0.

(** How often request [i] moves in a schedule, and the calls each request
    has made after a schedule, given those made before. *)
Definition moves (i : nat) (sched : list nat) : nat :=
  length (filter (fun j => j = i) sched).

Definition advance (sched : list nat) (cs : list nat) : list nat :=
  foldl (fun cs i => alter S i cs) cs sched.

(** Each of the requests 0 .. n-1 moves at least [k] times in [sched];
    no request moves [k] times in [sched]. *)
Definition all_moved (k n : nat) (sched : list nat) : bool :=
  forallb (fun i => (k <=? moves i sched)%nat) (seq 0 n).

Definition none_moved (k : nat) (sched : list nat) : bool :=
  forallb (fun i => (moves i sched <? k)%nat) sched.

(** A start state for the examples: Redis empty, one restaurant stored. *)
Definition example_rows : list Row :=
  [{| row_id := "7d44"; row_name := Some "Dosa Corner" |}].

Definition example_text : string := JSON.stringify (rows_value example_rows).

Definition example_world : World :=
  {| now := 0; redis := ∅; redis_up := true; db_up := true;
     restaurants := Some example_rows; uuid_of := fun n => String (ascii_of_nat (97 + n)) "";
     uuid_next := 0%nat; trace := [] |}.

(** After a first read at 0: the clock at 30, then, after a second read,
    at 61. *)
Definition example_warm : World := at_time 30 (handle get_restaurants example_world).1.

Definition example_expired : World := at_time 61 (handle get_restaurants example_warm).1.

(** Before the first POST /restaurants the table does not exist, and the
    SELECT fails. *)
Definition example_no_table : World :=
  {| now := 0; redis := ∅; redis_up := true; db_up := true;
     restaurants := None; uuid_of := fun n => String (ascii_of_nat (97 + n)) "";
     uuid_next := 0%nat; trace := [] |}.

Definition example_retry : World := at_time 5 (handle get_restaurants example_no_table).1.

End Restaurant.

(** ** order-service *)

Module Order.

(** A row of [orders(id UUID, status TEXT)]. *)
Record Row : Type := { row_id : string; row_status : string }.

(** A job of the BullMQ queue "order-events": [add(name, data)] with
    [data = { orderId }]. *)
Record Job : Type := { job_name : string; job_orderId : string }.

Inductive Sql : Type :=
| CreateOrders                                   (* CREATE TABLE IF NOT EXISTS orders(id UUID, status TEXT) *)
| InsertOrder (id : string) (status : string).   (* INSERT INTO orders VALUES($1,$2) *)

Inductive Op : Type -> Type :=
| DbQuery (q : Sql) : Op unit
| Uuid : Op string
| QueueAdd (name : string) (orderId : string) : Op unit.

Record World : Type := {
  db_up : bool;
  orders : option (list Row);          (* None: the table does not exist *)
  queue_up : bool;                     (* orderQueue.add resolves; false: it rejects *)
  queue : list Job;                    (* jobs added, oldest first *)
  uuid_of : nat -> string;
  uuid_next : nat
}.

Definition set_orders (t : option (list Row)) (w : World) : World :=
  {| db_up := db_up w; orders := t; queue_up := queue_up w; queue := queue w;
     uuid_of := uuid_of w; uuid_next := uuid_next w |}.

Definition set_queue (q : list Job) (w : World) : World :=
  {| db_up := db_up w; orders := orders w; queue_up := queue_up w; queue := q;
     uuid_of := uuid_of w; uuid_next := uuid_next w |}.

Definition bump_uuid (w : World) : World :=
  {| db_up := db_up w; orders := orders w; queue_up := queue_up w; queue := queue w;
     uuid_of := uuid_of w; uuid_next := S (uuid_next w) |}.

Definition db_query (w : World) (q : Sql) : World * (JsError + unit) :=
  if db_up w then
    match q with
    | CreateOrders => (set_orders (Some (default [] (orders w))) w, inr tt)
    | InsertOrder id status =>
        match orders w with
        | Some rows =>
            (set_orders (Some (rows ++ [{| row_id := id; row_status := status |}])%list) w,
             inr tt)
        | None => (w, inl DbError)
        end
    end
  else (w, inl DbError).

Definition perform (X : Type) (w : World) (op : Op X) : World * (JsError + X) :=
  match op in Op X return World * (JsError + X) with
  | DbQuery q => db_query w q
  | Uuid => (bump_uuid w, inr (uuid_of w (uuid_next w)))
  | QueueAdd name orderId =>
      if queue_up w then
        (set_queue (queue w ++ [{| job_name := name; job_orderId := orderId |}]) w, inr tt)
      else (w, inl QueueError)
  end.

(** app.post("/orders"); the handler reads nothing of [req]. *)
Definition post_orders : Prog Op Response :=
  _ ← call (DbQuery CreateOrders);
  id ← call Uuid;
  _ ← call (DbQuery (InsertOrder id "PLACED"));
  _ ← call (QueueAdd "order.created" id);
  Ret (res_json (JObject [("orderId", JString id); ("status", JString "PLACED")])).

Definition handle (p : Prog Op Response) (w : World) : World * Outcome :=
  run perform p w.

(** The rows of the table, none while it does not exist. *)
Definition table (w : World) : list Row := default [] (orders w).

Definition example_world : World :=
  {| db_up := true; orders := None; queue_up := true; queue := [];
     uuid_of := fun n => String (ascii_of_nat (97 + n)) ""; uuid_next := 0%nat |}.

End Order.

(** ** payment-service *)

Module Payment.

(** The request as the handler receives it; [req.body] is whatever
    [express.json()] made of the body, of any shape. *)
Record Request (Body : Type) : Type := {
  headers : list (string * string);
  body : Body
}.

(** app.post("/payments") *)
Definition post_payments {Body : Type} (req : Request Body) : Response :=
  res_json (JObject [("status", JString "PAYMENT_SUCCESS")]).

(** A POST /payments as it reaches the app: its headers, and what
    [express.json()] (line 3, before the handler) makes of its body: the
    parsed body, or the error it fails the request with. *)
Record Arrival (Body : Type) : Type := {
  arr_headers : list (string * string);
  arr_body : BodyFault + Body
}.

Arguments arr_headers {Body} _.
Arguments arr_body {Body} _.

(** What the client is sent. *)
Inductive Reply : Type :=
| Handled (r : Response)     (* the handler's response, status 200 *)
| Refused (f : BodyFault).   (* Express's answer to the parser's error *)

(** The status line of a reply. *)
Definition reply_status (r : Reply) : Z :=
  match r with
  | Handled _ => 200
  | Refused f => fault_status f
  end.

(** The app for POST /payments: the parser, then the handler. *)
Definition payments_app {Body : Type} (a : Arrival Body) : Reply :=
  match arr_body a with
  | inr b => Handled (post_payments {| headers := arr_headers a; body := b |})
  | inl f => Refused f
  end.

(** Two arrivals for the examples: a JSON object, and a body that breaks
    off after its opening brace. *)
Definition example_paid : Arrival JsValue :=
  {| arr_headers := [("content-type", "application/json")];
     arr_body := inr (JObject [("orderId", JString "a")]) |}.

Definition example_broken : Arrival JsValue :=
  {| arr_headers := [("content-type", "application/json")];
     arr_body := inl Malformed |}.

End Payment.

(** ** auth-service *)

Module Auth.

(** A row of [users(id, email, password, role)]; [password] holds the
    bcrypt hash. *)
Record User : Type := {
  user_id : string; user_email : string; user_password : string; user_role : string
}.

(** The payload given to [jwt.sign]. *)
Record Claims : Type := { claim_id : string; claim_role : string }.

(** [req.body] of POST /auth/login: a field is a string or missing. *)
Record LoginBody : Type := { email : option string; password : option string }.

Inductive Op : Type -> Type :=
| SelectUserByEmail (email : option string) : Op (list User)
| JwtSign (payload : Claims) : Op string.

Record World : Type := {
  db_up : bool;
  users : list User;
  jwt_secret : option string;            (* process.env.JWT_SECRET *)
  issued : list string                   (* the tokens signed, oldest first *)
}.

Section Libraries.
(** bcryptjs and jsonwebtoken, on strings. *)
Variable bcrypt_compare : string -> string -> bool.
Variable jwt_sign : Claims -> string -> string.

(** SELECT * FROM users WHERE email=$1: the rows the query returns.  An
    undefined parameter is sent as NULL, which equals no email; a string
    that is not a TEXT value gets no rows either, Postgres refusing the
    query (see [perform]). *)
Definition select_by_email (w : World) (e : option string) : list User :=
  match e with
  | Some e => if has_nul e then [] else filter (fun u => user_email u = e) (users w)
  | None => []
  end.

(** The two library calls.  [db.query] rejects when Postgres does not
    answer or refuses the parameter; [jwt.sign] throws when the secret is
    undefined or the empty string (secretOrPrivateKey must have a value). *)
Definition perform (X : Type) (w : World) (op : Op X) : World * (JsError + X) :=
  match op in Op X return World * (JsError + X) with
  | SelectUserByEmail e =>
      if db_up w && text_ok e then (w, inr (select_by_email w e)) else (w, inl DbError)
  | JwtSign payload =>
      match jwt_secret w with
      | Some secret =>
          if String.eqb secret "" then (w, inl JwtError)
          else
            let token := jwt_sign payload secret in
            ({| db_up := db_up w; users := users w; jwt_secret := jwt_secret w;
                issued := issued w ++ [token] |}, inr token)
      | None => (w, inl JwtError)
      end
  end.

(** [bcrypt.compareSync(s, hash)] throws unless both are strings. *)
Definition compareSync (s : option string) (hash : string) : JsError + bool :=
  match s with
  | Some s => inr (bcrypt_compare s hash)
  | None => inl BcryptError
  end.

(** app.post("/auth/login") *)
Definition login (req : LoginBody) : Prog Op Response :=
  rows ← call (SelectUserByEmail (email req));
  if (length rows =? 0)%nat then Ret (res_sendStatus 401)
  else
    match head rows with
    | None => Throw TypeError
    | Some user =>
        match compareSync (password req) (user_password user) with
        | inl e => Throw e
        | inr false => Ret (res_sendStatus 401)
        | inr true =>
            token ← call (JwtSign {| claim_id := user_id user; claim_role := user_role user |});
            Ret (res_json (JObject [("token", JString token)]))
        end
    end.

Definition handle (p : Prog Op Response) (w : World) : World * Outcome :=
  run perform p w.
End Libraries.

(** Stand-ins for the two libraries in the examples: the hash of [p] is
    ["$2a$08$" ++ p], a token lists its inputs. *)
Definition example_compare (s hash : string) : bool := String.eqb ("$2a$08$" +:+ s) hash.

Definition example_sign (c : Claims) (secret : string) : string :=
  claim_id c +:+ "." +:+ claim_role c +:+ "." +:+ secret.

Definition example_world : World :=
  {| db_up := true;
     users := [{| user_id := "u-1"; user_email := "asha@example.com";
                  user_password := "$2a$08$tiffin"; user_role := "USER" |}];
     jwt_secret := Some "s3cret"; issued := [] |}.

(** The same users with JWT_SECRET set to the empty string, and with
    Postgres not answering. *)
Definition example_keyless : World :=
  {| db_up := true; users := users example_world; jwt_secret := Some ""; issued := [] |}.

Definition example_db_down : World :=
  {| db_up := false; users := users example_world; jwt_secret := Some "s3cret";
     issued := [] |}.

End Auth.

(** ** api-gateway *)

Module Gateway.

(** One [app.use(prefix, createProxyMiddleware({ target }))]. *)
Record Route : Type := { prefix : string; target : string }.

(** The four mounts, in the order of registration. *)
Definition gateway_routes : list Route :=
  [ {| prefix := "/auth"; target := "http://auth-service:4001" |};
    {| prefix := "/restaurants"; target := "http://restaurant-service:4002" |};
    {| prefix := "/orders"; target := "http://order-service:4003" |};
    {| prefix := "/payments"; target := "http://payment-service:4004" |} ].

(** Express matches a mount path without regard to the case of letters. *)
Definition lower (c : ascii) : ascii :=
  let n := nat_of_ascii c in
  if (65 <=? n)%nat && (n <=? 90)%nat then ascii_of_nat (n + 32) else c.

(** The path left when [p] is removed from the front of [path]. *)
Fixpoint strip (p path : string) : option string :=
  match p, path with
  | "", _ => Some path
  | String a p', String b path' =>
      if Ascii.eqb (lower a) (lower b) then strip p' path' else None
  | String _ _, "" => None
  end.

(** A mount at [p] takes the paths that start with [p] up to the end of
    a segment: [p] itself, or [p] followed by a slash. *)
Definition mount_matches (p path : string) : bool :=
  match strip p path with
  | Some "" => true
  | Some (String c _) => Ascii.eqb c "/"
  | None => false
  end.

(** The middlewares are tried in the order of registration; a proxy
    middleware answers every request it is given. *)
Fixpoint route (routes : list Route) (path : string) : option Route :=
  match routes with
  | [] => None
  | r :: rest => if mount_matches (prefix r) path then Some r else route rest path
  end.



(** A request as the gateway sees it: the path of its URL, and what
    [express.json()] makes of its body. *)
Record Request : Type := { path : string; body : BodyCheck }.

(** Whether the parser lets the request through to the mounts. *)
Definition body_parses (req : Request) : bool :=
  match body req with
  | Accepted => true
  | Rejected _ => false
  end.

(** What the upstream does with a forwarded request: it answers with a
    status, or the connection fails or times out. *)
Inductive Upstream : Type :=
| Replied (status : Z)
| Failed.

Inductive GwResponse : Type :=
| ParserError (f : BodyFault)  (* 400, 413 or 415: [fault_status f], from express.json() *)
| NotFound              (* 404, no middleware took the request *)
| Proxied (status : Z)  (* the upstream's answer, passed on *)
| ProxyError.           (* the proxy's answer to a failed forward *)

(** What happens at the gateway, at a time in seconds: a request
    arrives on connection [id]; the forward made for [id] ends. *)
Inductive GwEvent : Type :=
| Arrive (time : Z) (id : nat) (req : Request)
| Settle (time : Z) (id : nat) (result : Upstream).

(** The gateway keeps the forwards in flight and nothing else; [attempts]
    and [responses] record what it did. *)
Record GwState : Type := {
  inflight : list (nat * string);        (* connection, target *)
  attempts : list (nat * string);        (* every forward started, oldest first *)
  responses : list (nat * GwResponse)    (* every response sent, oldest first *)
}.

Definition gw_init : GwState := {| inflight := []; attempts := []; responses := [] |}.

Definition respond (id : nat) (r : GwResponse) (st : GwState) : GwState :=
  {| inflight := inflight st; attempts := attempts st;
     responses := responses st ++ [(id, r)] |}.

Definition forward (id : nat) (t : string) (st : GwState) : GwState :=
  {| inflight := inflight st ++ [(id, t)]; attempts := attempts st ++ [(id, t)];
     responses := responses st |}.

Definition settle (id : nat) (st : GwState) : GwState :=
  {| inflight := filter (fun c => c.1 ≠ id) (inflight st); attempts := attempts st;
     responses := responses st |}.

Definition is_inflight (id : nat) (st : GwState) : bool :=
  bool_decide (id ∈ (inflight st).*1).

Definition gw_step (st : GwState) (ev : GwEvent) : GwState :=
  match ev with
  | Arrive _ id req =>
      match body req with
      | Accepted =>
          match route gateway_routes (path req) with
          | Some r => forward id (target r) st
          | None => respond id NotFound st
          end
      | Rejected f => respond id (ParserError f) st
      end
  | Settle _ id result =>
      if is_inflight id st then
        respond id (match result with Replied s => Proxied s | Failed => ProxyError end)
                (settle id st)
      else st
  end.

Definition gw_run (evs : list GwEvent) (st : GwState) : GwState := foldl gw_step st evs.

(** The forward a request is due: one, to its mount's target, when its
    body parses and its path is mounted. *)
Definition forward_due (ev : GwEvent) : option (nat * string) :=
  match ev with
  | Arrive _ id req =>
      if body_parses req then
        match route gateway_routes (path req) with
        | Some r => Some (id, target r)
        | None => None
        end
      else None
  | Settle _ _ _ => None
  end.

(** The forwards started for connection [id]. *)
Definition attempts_of (id : nat) (st : GwState) : list string :=
  (filter (fun a => a.1 = id) (attempts st)).*2.

(** Request [id] to [p] at time [t], failing right away. *)
Definition failing (t : Z) (id : nat) (p : string) : list GwEvent :=
  [Arrive t id {| path := p; body := Accepted |}; Settle t id Failed].

Definition orders_route : Route :=
  {| prefix := "/orders"; target := "http://order-service:4003" |}.

Definition orders_request : Request := {| path := "/orders/6"; body := Accepted |}.

(** Five requests to /orders in a row, each failing. *)
Definition five_failures : list GwEvent :=
  failing 0 0 "/orders" ++ failing 1 1 "/orders" ++ failing 2 2 "/orders"
    ++ failing 3 3 "/orders" ++ failing 4 4 "/orders".

End Gateway.

(** ** restaurant-service: calls in a row *)

Module RestaurantRuns.
Import Restaurant.

(** POST /restaurants called once per body, one call after the other. *)
Definition post_all (reqs : list PostBody) (w : World) : World :=
  foldl (fun w req => (handle (post_restaurants req) w).1) w reqs.

(** The row a POST with body [req] inserts when [uuid()] returns [id]. *)
Definition new_row (id : string) (req : PostBody) : Row :=
  {| row_id := id; row_name := body_name req |}.

(** The rows [post_all] inserts, the first id being the [n]-th of the
    generator: every call draws an id, and adds a row unless its name is
    not a TEXT value. *)
Fixpoint new_rows (gen : nat -> string) (n : nat) (reqs : list PostBody) : list Row :=
  match reqs with
  | [] => []
  | req :: reqs' =>
      (if text_ok (body_name req) then [new_row (gen n) req] else [])
        ++ new_rows gen (S n) reqs'
  end.

(** GET /restaurants called at each of the times [ts], in order: the
    state after the last call and the outcomes of all. *)
Fixpoint read_at (ts : list Z) (w : World) : World * list Outcome :=
  match ts with
  | [] => (w, [])
  | t :: ts' =>
      let r := handle get_restaurants (at_time t w) in
      let rs := read_at ts' r.1 in
      (rs.1, r.2 :: rs.2)
  end.

Definition example_body : PostBody := {| body_name := Some "Idli House" |}.

(** A name that holds the code unit 0. *)
Definition example_nul_body : PostBody :=
  {| body_name := Some (String "I" (String "000" "dli")) |}.

(** Two reads on the cold key and a POST in flight together, and a
    schedule on which the first read's query fails for want of the table,
    the POST then creates it, and the second read's query succeeds. *)
Definition example_race : list (Prog Op Response) :=
  [get_restaurants; get_restaurants; post_restaurants example_body].

Definition example_race_schedule : list nat := [0; 1; 0; 2; 2; 2; 1; 1]%nat.

(** [example_world] with Redis answering every command with an error. *)
Definition example_redis_refusing : World :=
  {| now := 0; redis := ∅; redis_up := false; db_up := true;
     restaurants := Some example_rows; uuid_of := uuid_of example_world;
     uuid_next := 0%nat; trace := [] |}.

(** The entry the first read of [example_world] stores. *)
Definition example_entry : CacheEntry :=
  {| ce_value := example_text; ce_inserted := 0; ce_ttl := 60 |}.

End RestaurantRuns.

(** ** order-service: calls in a row *)

Module OrderRuns.
Import Order.

(** Between two calls Postgres and the queue may stop and resume
    answering; the table, the queue and the id generator are the
    service's own. *)
Record env_step (w w' : World) : Prop := {
  env_orders : orders w' = orders w;
  env_queue : queue w' = queue w;
  env_uuid_of : uuid_of w' = uuid_of w;
  env_uuid_next : uuid_next w' = uuid_next w
}.

Definition row_ids (w : World) : list string := map row_id (table w).
Definition job_ids (w : World) : list string := map job_orderId (queue w).

(** The rest of [post_orders] after each of its calls. *)
Definition add_and_respond (id : string) : Prog Op Response :=
  _ ← call (QueueAdd "order.created" id);
  Ret (res_json (JObject [("orderId", JString id); ("status", JString "PLACED")])).

Definition insert_and_add (id : string) : Prog Op Response :=
  _ ← call (DbQuery (InsertOrder id "PLACED"));
  add_and_respond id.

Definition draw_and_insert : Prog Op Response :=
  id ← call Uuid;
  insert_and_add id.

(** The service with its requests in flight: from a start with no order,
    no job and no request, a request arrives, a request in flight makes its
    next call (the requests interleave at their awaits), or the
    surroundings move. *)
Inductive running : World * list (Prog Op Response) -> Prop :=
| run_init w : table w = [] -> queue w = [] -> running (w, [])
| run_env w w' pool : running (w, pool) -> env_step w w' -> running (w', pool)
| run_arrive w pool : running (w, pool) -> running (w, (pool ++ [post_orders])%list)
| run_step st i : running st -> running (step_pool perform st i).

(** The states the service can be in. *)
Definition reachable (w : World) : Prop := exists pool, running (w, pool).

(** Where a request in flight stands, in a state [w]: [Some k] when it has
    drawn the [k]-th id and not yet inserted its row. *)
Inductive thread_at (w : World) : Prog Op Response -> option nat -> Prop :=
| at_start : thread_at w post_orders None
| at_draw : thread_at w draw_and_insert None
| at_insert k : (k < uuid_next w)%nat -> thread_at w (insert_and_add (uuid_of w k)) (Some k)
| at_add id : id ∈ row_ids w -> thread_at w (add_and_respond id) None
| at_ret r : thread_at w (Ret r) None
| at_throw e : thread_at w (Throw e) None.

(** What the requests in flight keep true: the rows carry distinct draws
    of the generator, the draws not yet inserted are others again, every
    job is for a row, and rows and jobs have the one status and name. *)
Record invariant (w : World) (pool : list (Prog Op Response))
    (marks : list (option nat)) (ks : list nat) : Prop := {
  inv_threads : Forall2 (thread_at w) pool marks;
  inv_rows : row_ids w = map (uuid_of w) ks;
  inv_nodup : NoDup (ks ++ omap id marks)%list;
  inv_drawn : Forall (fun k => (k < uuid_next w)%nat) ks;
  inv_jobs : Forall (fun j => job_orderId j ∈ row_ids w) (queue w);
  inv_names : Forall (fun j => job_name j = "order.created") (queue w);
  inv_status : Forall (fun r => row_status r = "PLACED") (table w)
}.

(** A generator that never repeats: the [n]-th id is [n] strokes. *)
Fixpoint tally (n : nat) : string :=
  match n with
  | O => ""
  | S n' => String "i" (tally n')
  end.

Definition example_tally : World :=
  {| db_up := true; orders := None; queue_up := true; queue := [];
     uuid_of := tally; uuid_next := 0%nat |}.

(** Two requests in flight, and a schedule on which the second is queued
    first: the first inserts its row, the second runs from start to end,
    the first then adds its job. *)
Definition example_overtaking : list nat := [0; 0; 0; 1; 1; 1; 1; 0]%nat.

Definition example_overtaken : World :=
  (run_schedule perform example_overtaking (example_world, [post_orders; post_orders])).1.

(** The same start as [example_world] with [orderQueue.add] rejecting. *)
Definition example_queue_down : World :=
  {| db_up := true; orders := None; queue_up := false; queue := [];
     uuid_of := uuid_of example_world; uuid_next := 0%nat |}.

End OrderRuns.

(** ** notification-service *)

Module Notification.

(** The arguments of the worker's [console.log]: the tag, [job.name] and
    [job.data]. *)
Record ConsoleLine : Type := {
  line_tag : string; line_name : string; line_orderId : string
}.

(** The processor given to [new Worker("order-events", ...)]. *)
Definition processor (job : Order.Job) : ConsoleLine :=
  {| line_tag := "[NOTIFICATION-SERVICE] Processing job";
     line_name := Order.job_name job;
     line_orderId := Order.job_orderId job |}.

End Notification.

(** ** auth-service: start-up *)

Module Startup.

(** What [initDB] and the start of the server do, in order. *)
Inductive BootEvent : Type :=
| QueryOk                       (* the CREATE TABLE went through *)
| QueryFailed (remaining : nat) (* it threw; "retries left" as logged *)
| Sleep (ms : Z)                (* setTimeout(res, delay) *)
| Exit (code : Z)               (* process.exit *)
| Listen (port : Z).            (* app.listen *)

Section Boot.
(** Whether the [k]-th query of the start-up, counted from 0, succeeds. *)
Variable db_ready : nat -> bool.

(** The loop of [initDB], about to make query number [k] with [retries]
    left: its events, and whether the promise resolves ([false]: the
    process has exited).  [retries] counts down from a natural number, as
    in the one call [initDB()]. *)
Fixpoint initDB_from (k : nat) (retries : nat) (delay : Z) : list BootEvent * bool :=
  match retries with
  | O => ([], true)
  | S remaining =>
      if db_ready k then ([QueryOk], true)
      else
        match remaining with
        | O => ([QueryFailed remaining; Exit 1], false)
        | S _ =>
            let rest := initDB_from (S k) remaining delay in
            (QueryFailed remaining :: Sleep delay :: rest.1, rest.2)
        end
  end.

Definition initDB (retries : nat) (delay : Z) : list BootEvent * bool :=
  initDB_from 0 retries delay.

(** [initDB().then(() => app.listen(4001, ...))] *)
Definition boot : list BootEvent :=
  let r := initDB 10 3000 in
  if r.2 then r.1 ++ [Listen 4001] else r.1.
End Boot.

(** [j] failed queries in a row, the first made with [retries] left,
    each followed by a sleep. *)
Fixpoint failures (retries j : nat) (delay : Z) : list BootEvent :=
  match j, retries with
  | S j', S remaining => QueryFailed remaining :: Sleep delay :: failures remaining j' delay
  | _, _ => []
  end.

Definition is_query (ev : BootEvent) : bool :=
  match ev with
  | QueryOk | QueryFailed _ => true
  | _ => false
  end.

Definition queries (evs : list BootEvent) : nat := length (filter is_query evs).

Definition slept (evs : list BootEvent) : Z :=
  foldr (fun ev acc => match ev with Sleep ms => ms + acc | _ => acc end) 0 evs.

(** The database answers from its [n]-th query on. *)
Definition ready_from (n : nat) (k : nat) : bool := (n <=? k)%nat.

End Startup.

(** ** auth-service: registration *)

Module Accounts.

(** [req.body] of POST /auth/register: a field is a string or missing. *)
Record RegisterBody : Type := {
  email : option string; password : option string; role : option string
}.

Inductive Op : Type -> Type :=
| BcryptHash (s : option string) (rounds : nat) : Op string
| Uuid : Op string
| InsertUser (id : string) (email : option string) (hash role : string) : Op unit.

(** The state of the login handler, and the two generators registration
    draws from: uuid() and the salts of bcrypt. *)
Record World : Type := {
  auth : Auth.World;
  uuid_of : nat -> string;
  uuid_next : nat;
  salt_of : nat -> string;
  salt_next : nat
}.

Definition set_users (us : list Auth.User) (a : Auth.World) : Auth.World :=
  {| Auth.db_up := Auth.db_up a; Auth.users := us;
     Auth.jwt_secret := Auth.jwt_secret a; Auth.issued := Auth.issued a |}.

(** The state after the two draws of a registration. *)
Definition drawn (w : World) : World :=
  {| auth := auth w; uuid_of := uuid_of w; uuid_next := S (uuid_next w);
     salt_of := salt_of w; salt_next := S (salt_next w) |}.

Definition set_auth (a : Auth.World) (w : World) : World :=
  {| auth := a; uuid_of := uuid_of w; uuid_next := uuid_next w;
     salt_of := salt_of w; salt_next := salt_next w |}.

(** [role || "USER"]: undefined and the empty string are falsy. *)
Definition or_default (v : option string) (d : string) : string :=
  match v with
  | Some s => if String.eqb s "" then d else s
  | None => d
  end.

Definition ids (a : Auth.World) : list string := map Auth.user_id (Auth.users a).
Definition emails (a : Auth.World) : list string := map Auth.user_email (Auth.users a).

(** INSERT INTO users VALUES($1,$2,$3,$4) under the table's constraints:
    id PRIMARY KEY, email UNIQUE NOT NULL (an undefined parameter is
    NULL); email, password and role are TEXT. *)
Definition insert_user (a : Auth.World) (id : string) (e : option string)
    (hash role : string) : Auth.World * (JsError + unit) :=
  if Auth.db_up a then
    match e with
    | None => (a, inl DbError)
    | Some e =>
        if has_nul e || has_nul hash || has_nul role then (a, inl DbError)
        else if bool_decide (id ∈ ids a) || bool_decide (e ∈ emails a) then (a, inl DbError)
        else
          (set_users (Auth.users a ++
                      [{| Auth.user_id := id; Auth.user_email := e;
                          Auth.user_password := hash; Auth.user_role := role |}]) a,
           inr tt)
    end
  else (a, inl DbError).

Section Libraries.
(** bcryptjs: the hash of a string under a salt. *)
Variable bcrypt_hash : string -> string -> string.

Definition perform (X : Type) (w : World) (op : Op X) : World * (JsError + X) :=
  match op in Op X return World * (JsError + X) with
  | BcryptHash s rounds =>
      match s with
      | Some s =>
          ({| auth := auth w; uuid_of := uuid_of w; uuid_next := uuid_next w;
              salt_of := salt_of w; salt_next := S (salt_next w) |},
           inr (bcrypt_hash s (salt_of w (salt_next w))))
      | None => (w, inl BcryptError)
      end
  | Uuid =>
      ({| auth := auth w; uuid_of := uuid_of w; uuid_next := S (uuid_next w);
          salt_of := salt_of w; salt_next := salt_next w |},
       inr (uuid_of w (uuid_next w)))
  | InsertUser id e hash role =>
      let r := insert_user (auth w) id e hash role in
      (set_auth r.1 w, r.2)
  end.

(** app.post("/auth/register") *)
Definition register (req : RegisterBody) : Prog Op Response :=
  hash ← call (BcryptHash (password req) 8);
  id ← call Uuid;
  _ ← call (InsertUser id (email req) hash (or_default (role req) "USER"));
  Ret (res_json (JObject [("message", JString "User registered")])).

Definition handle (p : Prog Op Response) (w : World) : World * Outcome :=
  run perform p w.

(** The states of the service from an empty table: by registrations, and
    by anything that leaves the table alone (logins, connections dropping,
    the generators moving on). *)
Inductive reachable : World -> Prop :=
| reach_init w : Auth.users (auth w) = [] -> reachable w
| reach_other w w' :
    reachable w -> Auth.users (auth w') = Auth.users (auth w) -> reachable w'
| reach_register w req : reachable w -> reachable (handle (register req) w).1.
End Libraries.

(** A stand-in for [bcrypt.hash] that goes with [Auth.example_compare]. *)
Definition example_hash (s salt : string) : string := "$2a$08$" +:+ s.

Definition example_world : World :=
  {| auth := Auth.example_world;
     uuid_of := fun n => String (ascii_of_nat (97 + n)) "";
     uuid_next := 0%nat;
     salt_of := fun _ => "salt"; salt_next := 0%nat |}.

Definition example_body : RegisterBody :=
  {| email := Some "ravi@example.com"; password := Some "chutney"; role := None |}.

(** The service right after its start-up: no user yet. *)
Definition empty_world : World :=
  {| auth := {| Auth.db_up := true; Auth.users := [];
                Auth.jwt_secret := Some "s3cret"; Auth.issued := [] |};
     uuid_of := fun n => String (ascii_of_nat (97 + n)) "";
     uuid_next := 0%nat;
     salt_of := fun _ => "salt"; salt_next := 0%nat |}.

End Accounts.

(** ** api-gateway: paths *)

Module GatewayPaths.
Import Gateway.

Fixpoint lower_string (s : string) : string :=
  match s with
  | "" => ""
  | String c s' => String (lower c) (lower_string s')
  end.

(** The rest of a path after a mount: nothing, or a further segment. *)
Definition segment_end (rest : string) : Prop :=
  rest = "" \/ exists rest', rest = String "/" rest'.


(** The answer the gateway gives an arrival by itself, without a forward:
    the status of the parser's error when [express.json()] rejects the
    body, 404 when no mount takes the path. *)
Definition own_answer (ev : GwEvent) : option (nat * GwResponse) :=
  match ev with
  | Arrive _ id req =>
      match body req with
      | Accepted =>
          match route gateway_routes (path req) with
          | Some _ => None
          | None => Some (id, NotFound)
          end
      | Rejected f => Some (id, ParserError f)
      end
  | Settle _ _ _ => None
  end.

Definition is_own (r : nat * GwResponse) : bool :=
  match r.2 with
  | ParserError _ | NotFound => true
  | _ => false
  end.

(** The status line of a response the gateway makes itself. *)
Definition own_status (r : GwResponse) : option Z :=
  match r with
  | ParserError f => Some (fault_status f)
  | NotFound => Some 404
  | _ => None
  end.

End GatewayPaths.

(** * Properties *)

(** ** JSON: parsing undoes stringifying *)

Section JsonFacts.
Import JSON.

Lemma append_cons (x : ascii) (a b : string) : String x a +:+ b = String x (a +:+ b).
Proof. reflexivity. Qed.

Lemma append_assoc (a b c : string) : (a +:+ b) +:+ c = a +:+ (b +:+ c).
Proof.
  induction a as [|x a IH]; [reflexivity |].
  rewrite !append_cons. f_equal. exact IH.
Qed.

Lemma length_append (a b : string) :
  String.length (a +:+ b) = (String.length a + String.length b)%nat.
Proof.
  induction a as [|x a IH]; [reflexivity |].
  rewrite append_cons. simpl. f_equal. exact IH.
Qed.

(** An induction principle that reaches the values inside arrays and
    objects. *)
Lemma JsValue_ind (P : JsValue -> Prop) :
  P JNull ->
  (forall s, P (JString s)) ->
  (forall items, Forall P items -> P (JArray items)) ->
  (forall fields, Forall (fun kv => P kv.2) fields -> P (JObject fields)) ->
  forall v, P v.
Proof.
  intros Hnull Hstr Harr Hobj.
  fix IH 1. intros [ | s | items | fields ].
  - exact Hnull.
  - apply Hstr.
  - apply Harr. induction items as [|v items IHitems]; constructor; [apply IH | exact IHitems].
  - apply Hobj. induction fields as [|[k v] fields IHfields]; constructor;
      [apply IH | exact IHfields].
Qed.

Lemma parse_chars_quote_char (c : ascii) (t : string) :
  parse_chars (quote_char c +:+ t) =
  match parse_chars t with
  | Some (u, rest) => Some (String c u, rest)
  | None => None
  end.
Proof. destruct c as [[] [] [] [] [] [] [] []]; reflexivity. Qed.

Lemma parse_chars_quote_chars (s rest : string) :
  parse_chars (quote_chars s +:+ String dquote rest) = Some (s, rest).
Proof.
  induction s as [|c s IH]; cbn [quote_chars].
  - reflexivity.
  - rewrite append_assoc, parse_chars_quote_char, IH. reflexivity.
Qed.

Lemma parse_chars_quote (s rest : string) :
  parse_chars ((quote_chars s +:+ String dquote "") +:+ rest) = Some (s, rest).
Proof. rewrite append_assoc. apply parse_chars_quote_chars. Qed.

Lemma stringify_opens (v : JsValue) (rest : string) : opens_value (stringify v +:+ rest).
Proof. destruct v; simpl; auto. Qed.

Lemma jsize_pos (v : JsValue) : (1 <= jsize v)%nat.
Proof. destruct v; simpl; lia. Qed.

Section SeqFacts.
Context {A : Type} (parse_one : string -> option (A * string)).
Context (enc : A -> string) (close : ascii).
Hypothesis close_not_comma : Ascii.eqb close "," = false.

Lemma parse_seq_join (xs : list A) (fuel : nat) (rest : string) :
  xs <> [] ->
  (length xs <= fuel)%nat ->
  Forall (fun x => forall rest, parse_one (enc x +:+ rest) = Some (x, rest)) xs ->
  parse_seq parse_one close fuel (join "," (map enc xs) +:+ String close rest)
  = Some (xs, rest).
Proof.
  revert fuel. induction xs as [|x xs IH]; intros fuel Hne Hlen Hall; [done |].
  inversion Hall as [|? ? Hx Hxs]; subst.
  destruct fuel as [|fuel]; [simpl in Hlen; lia |].
  destruct xs as [|y xs].
  - cbn [map join parse_seq]. rewrite Hx, close_not_comma, Ascii.eqb_refl. reflexivity.
  - change (join "," (map enc (x :: y :: xs)))
      with (enc x +:+ "," +:+ join "," (map enc (y :: xs))).
    rewrite !append_assoc. cbn [parse_seq]. rewrite Hx.
    change ("," +:+ ?t) with (String "," t).
    cbn [Ascii.eqb Bool.eqb].
    rewrite IH; [reflexivity | done | simpl in *; lia | assumption].
Qed.
End SeqFacts.

Lemma list_sum_bound {A : Type} (f : A -> nat) (xs : list A) (x : A) :
  x ∈ xs -> (f x <= list_sum (map f xs))%nat.
Proof.
  induction 1 as [x xs | x y xs _ IH]; simpl; lia.
Qed.

Lemma list_sum_length {A : Type} (f : A -> nat) (xs : list A) :
  (forall x, 1 <= f x)%nat -> (length xs <= list_sum (map f xs))%nat.
Proof.
  intros Hf. induction xs as [|x xs IH]; simpl; [lia |]. specialize (Hf x). lia.
Qed.

Lemma parse_value_string (fuel : nat) (s1 : string) :
  parse_value (S fuel) (String dquote s1) =
  match parse_chars s1 with
  | Some (t, rest) => Some (JString t, rest)
  | None => None
  end.
Proof. reflexivity. Qed.

Lemma parse_value_array (fuel : nat) (s1 : string) :
  opens_value s1 ->
  parse_value (S fuel) (String "[" s1) =
  match parse_seq (parse_value fuel) "]" fuel s1 with
  | Some (items, rest) => Some (JArray items, rest)
  | None => None
  end.
Proof.
  destruct s1 as [|c u]; [done |]. intros [Hc _].
  cbn [parse_value]. change (Ascii.eqb "[" "n") with false.
  change (Ascii.eqb "[" dquote) with false. change (Ascii.eqb "[" "[") with true.
  cbv iota. rewrite Hc. reflexivity.
Qed.

Lemma parse_value_object (fuel : nat) (s1 : string) :
  opens_value s1 ->
  parse_value (S fuel) (String "{" s1) =
  match parse_seq (parse_member (parse_value fuel)) "}" fuel s1 with
  | Some (fields, rest) => Some (JObject fields, rest)
  | None => None
  end.
Proof.
  destruct s1 as [|c u]; [done |]. intros [_ Hc].
  cbn [parse_value]. change (Ascii.eqb "{" "n") with false.
  change (Ascii.eqb "{" dquote) with false. change (Ascii.eqb "{" "[") with false.
  change (Ascii.eqb "{" "{") with true.
  cbv iota. rewrite Hc. reflexivity.
Qed.

Lemma parse_member_quote (pv : string -> option (JsValue * string))
    (k : string) (v : JsValue) (t rest : string) :
  pv t = Some (v, rest) ->
  parse_member pv (quote k +:+ ":" +:+ t) = Some ((k, v), rest).
Proof.
  intros Hv. unfold quote, parse_member. rewrite append_cons.
  rewrite Ascii.eqb_refl, parse_chars_quote.
  change (":" +:+ t) with (String ":" t). cbv iota beta.
  rewrite Ascii.eqb_refl, Hv. reflexivity.
Qed.

Lemma join_opens {A : Type} (enc : A -> string) (x : A) (xs : list A) (t : string) :
  (forall u, opens_value (enc x +:+ u)) ->
  opens_value (join "," (map enc (x :: xs)) +:+ t).
Proof.
  intros Hx. destruct xs as [|y xs]; [apply Hx |].
  change (join "," (map enc (x :: y :: xs)))
    with (enc x +:+ "," +:+ join "," (map enc (y :: xs))).
  rewrite append_assoc. apply Hx.
Qed.

Lemma quote_opens (k : string) (u : string) : opens_value (quote k +:+ u).
Proof. unfold quote. rewrite append_cons. simpl. auto. Qed.

Lemma parse_value_stringify (v : JsValue) :
  forall (fuel : nat) (rest : string),
    (jsize v <= fuel)%nat ->
    parse_value fuel (stringify v +:+ rest) = Some (v, rest).
Proof.
  induction v as [ | s | items IH | fields IH ] using JsValue_ind;
    intros fuel rest Hfuel; (destruct fuel as [|fuel]; [simpl in Hfuel; lia |]).
  - reflexivity.
  - cbn [stringify]. unfold quote. rewrite append_cons, parse_value_string.
    rewrite parse_chars_quote. reflexivity.
  - destruct items as [|v items]; [reflexivity |].
    cbn [stringify]. rewrite !append_assoc.
    change ("[" +:+ ?t) with (String "[" t). change ("]" +:+ rest) with (String "]" rest).
    cbn [jsize] in Hfuel.
    rewrite parse_value_array by (apply join_opens; intros u; apply stringify_opens).
    rewrite (parse_seq_join (parse_value fuel) stringify "]"); try done.
    + pose proof (list_sum_length jsize (v :: items) jsize_pos). lia.
    + apply Forall_forall. intros x Hin rest'.
      rewrite Forall_forall in IH. apply IH; [exact Hin |].
      pose proof (list_sum_bound jsize _ _ Hin). lia.
  - destruct fields as [|kv fields]; [reflexivity |].
    cbn [stringify]. rewrite !append_assoc.
    change ("{" +:+ ?t) with (String "{" t). change ("}" +:+ rest) with (String "}" rest).
    cbn [jsize] in Hfuel.
    rewrite parse_value_object
      by (apply join_opens; intros u; rewrite append_assoc; apply quote_opens).
    rewrite (parse_seq_join (parse_member (parse_value fuel))
               (fun kv => quote kv.1 +:+ ":" +:+ stringify kv.2) "}"); try done.
    + pose proof (list_sum_length (fun kv : string * JsValue => jsize kv.2)
                    (kv :: fields) (fun kv => jsize_pos kv.2)). lia.
    + apply Forall_forall. intros [k x] Hin rest'.
      rewrite Forall_forall in IH. cbn [fst snd].
      rewrite !append_assoc. apply parse_member_quote.
      apply (IH _ Hin).
      pose proof (list_sum_bound (fun kv : string * JsValue => jsize kv.2) _ _ Hin).
      simpl in *. lia.
Qed.

Lemma append_empty (a : string) : a +:+ "" = a.
Proof. induction a as [|x a IH]; [reflexivity |]. rewrite append_cons. f_equal. exact IH. Qed.

Lemma join_length {A : Type} (enc : A -> string) (f : A -> nat) (xs : list A) :
  Forall (fun x => (f x <= String.length (enc x))%nat) xs ->
  (list_sum (map f xs) <= String.length (join "," (map enc xs)))%nat.
Proof.
  induction 1 as [|x xs Hx Hxs IH]; [simpl; lia |].
  destruct xs as [|y xs]; [simpl in *; lia |].
  change (join "," (map enc (x :: y :: xs)))
    with (enc x +:+ "," +:+ join "," (map enc (y :: xs))).
  rewrite !length_append.
  change (list_sum (map f (x :: y :: xs)))
    with (f x + list_sum (map f (y :: xs)))%nat.
  change (String.length ",") with 1%nat. lia.
Qed.

Lemma jsize_length (v : JsValue) : (jsize v <= String.length (stringify v))%nat.
Proof.
  induction v as [ | s | items IH | fields IH ] using JsValue_ind.
  - simpl. lia.
  - simpl. lia.
  - cbn [stringify jsize]. rewrite !length_append.
    pose proof (join_length stringify jsize items IH). simpl. lia.
  - cbn [stringify jsize]. rewrite !length_append.
    pose proof (join_length (fun kv => quote kv.1 +:+ ":" +:+ stringify kv.2)
                  (fun kv : string * JsValue => jsize kv.2) fields) as Hlen.
    simpl. cut (list_sum (map (fun kv : string * JsValue => jsize kv.2) fields)
                <= String.length
                     (join "," (map (fun kv => quote kv.1 +:+ ":" +:+ stringify kv.2) fields)))%nat;
      [lia |].
    apply Hlen. eapply Forall_impl; [exact IH |].
    intros [k x] Hx. cbn [fst snd] in *. rewrite !length_append. lia.
Qed.

(** [JSON.parse(JSON.stringify(v))] is [v]. *)
Lemma parse_stringify (v : JsValue) : JSON.parse (stringify v) = Some v.
Proof.
  unfold JSON.parse.
  rewrite <- (append_empty (stringify v)) at 2.
  rewrite parse_value_stringify; [reflexivity |].
  pose proof (jsize_length v). lia.
Qed.

(** The text of an array or an object is not the empty string. *)
Lemma stringify_nonempty (v : JsValue) : String.eqb (stringify v) "" = false.
Proof. destruct v; reflexivity. Qed.
End JsonFacts.

(** ** Requests in flight: schedules and rounds *)

Section PoolFacts.
Context {E : Type -> Type} {W : Type}.
Variable perform : forall X, W -> E X -> W * (JsError + X).

Lemma run_schedule_app (a b : list nat) (st : W * list (Prog E Response)) :
  run_schedule perform (a ++ b) st
  = run_schedule perform b (run_schedule perform a st).
Proof. unfold run_schedule. apply foldl_app. Qed.

(** A request that has ended stays as it is, whatever runs after it. *)
Lemma ended_stays (sched : list nat) :
  forall (st : W * list (Prog E Response)) (i : nat) (t : Prog E Response),
    st.2 !! i = Some t -> finished t <> None ->
    (run_schedule perform sched st).2 !! i = Some t.
Proof.
  induction sched as [|j sched IH]; intros [w pool] i t Hi Hend; [exact Hi |].
  unfold run_schedule in *. cbn [foldl]. apply IH; [|exact Hend].
  unfold step_pool. cbn [fst snd] in *.
  destruct (pool !! j) as [p|] eqn:Hj; [|exact Hi].
  destruct (step_thread perform w p) as [w' p'] eqn:Hstep. cbn [snd].
  destruct (decide (j = i)) as [-> | Hne].
  - assert (p = t) as -> by congruence.
    assert (p' = t) as ->.
    { destruct t; cbn in Hstep; [congruence | congruence | done]. }
    apply list_lookup_insert_eq. eapply lookup_lt_Some, Hi.
  - rewrite list_lookup_insert_ne by done. exact Hi.
Qed.

(** A handler run from start to end is its request making its calls one
    after the other, with no other request in between. *)
Lemma run_as_steps (p : Prog E Response) :
  forall (w : W) (pool : list (Prog E Response)) (i : nat),
    pool !! i = Some p ->
    exists (n : nat) (t : Prog E Response),
      run_schedule perform (replicate n i) (w, pool)
      = ((run perform p w).1, <[i := t]> pool).
Proof.
  induction p as [r | e | X op k IH]; intros w pool i Hi.
  - exists 0%nat, (Ret r). cbn. rewrite list_insert_id by exact Hi. reflexivity.
  - exists 0%nat, (Throw e). cbn. rewrite list_insert_id by exact Hi. reflexivity.
  - cbn [run]. destruct (perform X w op) as [w' [e | x]] eqn:Hop.
    + exists 1%nat, (Throw e). cbn. unfold step_pool. cbn [fst snd].
      rewrite Hi. cbn [step_thread]. rewrite Hop. reflexivity.
    + destruct (IH x w' (<[i := k x]> pool) i) as (n & t & Hrun).
      { apply list_lookup_insert_eq. eapply lookup_lt_Some, Hi. }
      exists (S n), t. cbn [replicate]. unfold run_schedule in *. cbn [foldl].
      unfold step_pool at 2. cbn [fst snd]. rewrite Hi. cbn [step_thread].
      rewrite Hop. rewrite Hrun, list_insert_insert_eq. reflexivity.
Qed.
End PoolFacts.

(** ** restaurant-service *)

Section RestaurantFacts.
Import Restaurant.

Lemma get_restaurants_unfold (w : World) :
  handle get_restaurants w =
  let w1 := log (EvClientGet "restaurants") w in
  if redis_up w then
    let cache := redis_get w "restaurants" in
    if truthy cache then
      (w1, match JSON.parse (default "" cache) with
           | Some v => Returned (res_json v)
           | None => Threw SyntaxError
           end)
    else
      match db_query (log (EvDbQuery SelectRestaurants) w1) SelectRestaurants with
      | (w2, inr rows) =>
          let text := JSON.stringify (rows_value rows) in
          let w3 := log (EvClientSetEx "restaurants" 60 text) w2 in
          if redis_up w2 then
            (set_redis (redis_setEx w2 "restaurants" 60 text) w3,
             Returned (res_json (rows_value rows)))
          else (w3, Threw RedisError)
      | (w2, inl e) => (w2, Threw e)
      end
  else (w1, Threw RedisError).
Proof.
  unfold handle, get_restaurants. cbn.
  destruct (redis_up w); [|reflexivity]. cbn.
  destruct (truthy (redis_get w "restaurants")).
  - destruct (JSON.parse _); reflexivity.
  - cbn. destruct (db_query _ _) as [w2 [e|rows]]; [reflexivity|]. cbn.
    destruct (redis_up w2); reflexivity.
Qed.

Lemma loader_calls_snoc (tr : list Event) (ev : Event) :
  loader_calls (tr ++ [ev]) = (loader_calls tr + (if is_load ev then 1 else 0))%nat.
Proof.
  unfold loader_calls. rewrite filter_app, length_app.
  f_equal. rewrite filter_cons, filter_nil. destruct (is_load ev); reflexivity.
Qed.

(** A live entry written by the service is served as it was stored. *)
Lemma get_hit (w : World) (rows : list Row) :
  redis_up w = true ->
  redis_get w "restaurants" = Some (JSON.stringify (rows_value rows)) ->
  handle get_restaurants w
  = (log (EvClientGet "restaurants") w, Returned (res_json (rows_value rows))).
Proof.
  intros Hup Hget. rewrite get_restaurants_unfold. cbv zeta.
  rewrite Hup, Hget. cbn [truthy default from_option id].
  rewrite stringify_nonempty. cbn [negb]. rewrite parse_stringify. reflexivity.
Qed.

Lemma get_miss (w : World) (rows : list Row) :
  redis_up w = true ->
  truthy (redis_get w "restaurants") = false ->
  db_up w = true ->
  restaurants w = Some rows ->
  handle get_restaurants w = (stored w rows, Returned (res_json (rows_value rows))).
Proof.
  intros Hup Hcold Hdb Hrows. rewrite get_restaurants_unfold. cbv zeta.
  rewrite Hup, Hcold. unfold db_query. cbn [db_up log restaurants].
  rewrite Hdb, Hrows. cbn [redis_up log]. rewrite Hup. reflexivity.
Qed.

Lemma get_miss_fails (w : World) :
  redis_up w = true ->
  truthy (redis_get w "restaurants") = false ->
  db_up w = false \/ restaurants w = None ->
  handle get_restaurants w
  = (log (EvDbQuery SelectRestaurants) (log (EvClientGet "restaurants") w), Threw DbError).
Proof.
  intros Hup Hcold Hfail. rewrite get_restaurants_unfold. cbv zeta.
  rewrite Hup, Hcold. unfold db_query. cbn [db_up log restaurants].
  destruct (db_up w); [|reflexivity].
  destruct Hfail as [Hfail | Hfail]; [discriminate |]. rewrite Hfail. reflexivity.
Qed.

Lemma get_restaurants_safe : safe get_restaurants.
Proof.
  split; [exact I |]. intros cache. cbn.
  destruct (truthy cache); [destruct (JSON.parse _); exact I |].
  split; [exact I |]. intros rows. cbn.
  split; [|intros _; exact I]. repeat split. exists rows. reflexivity.
Qed.

Lemma post_restaurants_safe (req : PostBody) : safe (post_restaurants req).
Proof. repeat (split; [exact I |]; intros ?; cbn). exact I. Qed.

Lemma step_safe (w : World) (t : Prog Op Response) :
  safe t -> safe (step_thread perform w t).2.
Proof.
  destruct t as [r | e | X op k]; cbn [step_thread]; try (intros; exact I).
  intros [_ Hk]. destruct (perform X w op) as [w' [e | x]]; [exact I | apply Hk].
Qed.

Lemma request_safe (t : Prog Op Response) : request t -> safe t.
Proof.
  induction 1 as [ | req | w t _ IH ].
  - apply get_restaurants_safe.
  - apply post_restaurants_safe.
  - apply step_safe, IH.
Qed.

Lemma cache_wf_redis (w w' : World) :
  redis w' !! "restaurants" = redis w !! "restaurants" -> cache_wf w -> cache_wf w'.
Proof. intros Heq Hwf e. rewrite Heq. apply Hwf. Qed.

(** A call of a safe program keeps [cache_wf]. *)
Lemma step_wf (w : World) (t : Prog Op Response) :
  cache_wf w -> safe t -> cache_wf (step_thread perform w t).1.
Proof.
  intros Hwf. destruct t as [r | e | X op k]; cbn [step_thread fst]; try (intros; assumption).
  intros [Hop _]. destruct op as [key | key seconds value | q | ]; cbn [perform].
  - destruct (redis_up w); cbn [fst]; exact Hwf.
  - destruct Hop as (-> & -> & rows & ->).
    destruct (redis_up w); cbn [fst]; [|exact Hwf].
    intros e. cbn [redis set_redis]. unfold redis_setEx. rewrite lookup_insert_eq.
    intros [= <-]. cbn. eauto.
  - unfold db_query. cbn [db_up log restaurants].
    destruct (db_up w); [|exact Hwf].
    destruct q as [ | id name | ];
      [| destruct (restaurants w); [destruct (text_ok name) |] | destruct (restaurants w)];
      exact Hwf.
  - exact Hwf.
Qed.

(** Every reachable state keeps [cache_wf]. *)
Lemma reachable_wf (w : World) : reachable w -> cache_wf w.
Proof.
  induction 1 as [w Hempty | w w' _ IH Henv | w t _ IH Hreq].
  - intros e. rewrite Hempty. discriminate.
  - apply (cache_wf_redis w); [apply (env_redis _ _ Henv) | exact IH].
  - apply step_wf; [exact IH | apply request_safe, Hreq].
Qed.

(** A handler run from start to end is a run of steps. *)
Lemma reachable_run (t : Prog Op Response) :
  forall w, reachable w -> request t -> reachable (handle t w).1.
Proof.
  unfold handle. induction t as [r | e | X op k IH]; intros w Hw Ht; cbn [run fst].
  - exact Hw.
  - exact Hw.
  - pose proof (reach_step w _ Hw Ht) as Hw'.
    pose proof (request_step w _ Ht) as Ht'.
    cbn [step_thread] in Hw', Ht'.
    destruct (perform X w op) as [w' [e | x]]; cbn [fst snd] in *.
    + exact Hw'.
    + apply IH; assumption.
Qed.

Lemma redis_get_Some (w : World) (k text : string) :
  redis_get w k = Some text ->
  exists e, redis w !! k = Some e /\ live (now w) e = true /\ ce_value e = text.
Proof.
  unfold redis_get. destruct (redis w !! k) as [e|]; [|discriminate].
  destruct (live (now w) e) eqn:Hlive; [|discriminate].
  intros [= <-]. eauto.
Qed.

(** C1. For the key of the cache-aside read, "restaurants", whenever it has
    a live entry in a state the service can reach (its requests' calls
    interleaved in any order) and Redis answers, GET /restaurants responds
    with the cached value, the JSON value whose text the entry holds, after
    the one call [client.get]: the query is run zero times. *)
Theorem cached_read_skips_loader (w : World) (text : string) :
  reachable w ->
  redis_up w = true ->
  redis_get w "restaurants" = Some text ->
  exists body,
    JSON.parse text = Some body /\ JSON.stringify body = text /\
    handle get_restaurants w
    = (log (EvClientGet "restaurants") w, Returned (res_json body)) /\
    trace (handle get_restaurants w).1 = (trace w ++ [EvClientGet "restaurants"])%list /\
    loader_calls (trace (handle get_restaurants w).1) = loader_calls (trace w).
Proof.
  intros Hreach Hup Hget.
  destruct (redis_get_Some _ _ _ Hget) as (e & He & _ & Hval).
  destruct (reachable_wf _ Hreach _ He) as (_ & rows & Hrows).
  assert (text = JSON.stringify (rows_value rows)) as -> by congruence.
  exists (rows_value rows). rewrite (get_hit _ _ Hup Hget).
  repeat split.
  - apply parse_stringify.
  - cbn [fst log trace]. rewrite loader_calls_snoc. cbn. lia.
Qed.

Lemma falsy_later (w w' : World) (k : string) :
  truthy (redis_get w k) = false ->
  redis w' !! k = redis w !! k ->
  now w <= now w' ->
  truthy (redis_get w' k) = false.
Proof.
  unfold redis_get. intros Hcold -> Hnow.
  destruct (redis w !! k) as [e|]; [|reflexivity].
  unfold live in *.
  destruct (now w' <? ce_inserted e + ce_ttl e) eqn:Hlater; [|reflexivity].
  destruct (now w <? ce_inserted e + ce_ttl e) eqn:Hnow0; [exact Hcold | lia].
Qed.

(** A read that misses runs the query once, whatever the query does. *)
Lemma get_cold (w : World) :
  redis_up w = true ->
  truthy (redis_get w "restaurants") = false ->
  loader_calls (trace (handle get_restaurants w).1) = (loader_calls (trace w) + 1)%nat /\
  (handle get_restaurants w).2
  = (if db_up w then
       match restaurants w with
       | Some rows => Returned (res_json (rows_value rows))
       | None => Threw DbError
       end
     else Threw DbError).
Proof.
  intros Hup Hcold.
  destruct (db_up w) eqn:Hdb; [destruct (restaurants w) as [rows|] eqn:Hrows |].
  - rewrite (get_miss w rows) by assumption. cbn [fst snd stored set_redis log trace].
    rewrite !loader_calls_snoc. cbn. split; [lia | reflexivity].
  - rewrite get_miss_fails by auto. cbn [fst snd log trace].
    rewrite !loader_calls_snoc. cbn. split; [lia | reflexivity].
  - rewrite get_miss_fails by auto. cbn [fst snd log trace].
    rewrite !loader_calls_snoc. cbn. split; [lia | reflexivity].
Qed.

(** C2. With the expiry rule [now < insertion + TTL] and the TTL of 60
    seconds the handler gives to SETEX: a read of a cold key at time t0 runs
    the query once and stores the result; any read before t0 + 60 (t0 + 30
    in the scenario) is served the stored value without a query, whatever
    the database holds by then; any read from t0 + 60 on (t0 + 61 in the
    scenario) finds the entry expired, runs the query again, and goes as
    it would with the key absent. *)
Theorem cache_served_for_sixty_seconds (w0 w1 w2 : World) (rows0 rows2 : list Row) :
  redis_up w0 = true -> db_up w0 = true -> restaurants w0 = Some rows0 ->
  truthy (redis_get w0 "restaurants") = false ->
  env_step (handle get_restaurants w0).1 w1 ->
  redis_up w1 = true -> now w1 < now w0 + 60 ->
  env_step (handle get_restaurants w1).1 w2 ->
  redis_up w2 = true -> db_up w2 = true -> restaurants w2 = Some rows2 ->
  now w0 + 60 <= now w2 ->
  (handle get_restaurants w0
     = (stored w0 rows0, Returned (res_json (rows_value rows0))) /\
   loader_calls (trace (stored w0 rows0)) = (loader_calls (trace w0) + 1)%nat /\
   redis (stored w0 rows0) !! "restaurants"
     = Some {| ce_value := JSON.stringify (rows_value rows0);
               ce_inserted := now w0; ce_ttl := 60 |}) /\
  (redis_get w1 "restaurants" = Some (JSON.stringify (rows_value rows0)) /\
   handle get_restaurants w1
     = (log (EvClientGet "restaurants") w1, Returned (res_json (rows_value rows0))) /\
   loader_calls (trace (handle get_restaurants w1).1) = loader_calls (trace w1)) /\
  (redis_get w2 "restaurants" = None /\
   handle get_restaurants w2
     = (stored w2 rows2, Returned (res_json (rows_value rows2))) /\
   loader_calls (trace (stored w2 rows2)) = (loader_calls (trace w2) + 1)%nat) /\
  ((handle get_restaurants w2).2
     = (handle get_restaurants (without "restaurants" w2)).2 /\
   trace (handle get_restaurants w2).1
     = trace (handle get_restaurants (without "restaurants" w2)).1 /\
   redis (handle get_restaurants w2).1
     = redis (handle get_restaurants (without "restaurants" w2)).1).
Proof.
  intros Hup0 Hdb0 Hrows0 Hcold0 Henv1 Hup1 Hnow1 Henv2 Hup2 Hdb2 Hrows2 Hnow2.
  rewrite (get_miss w0 rows0) in Henv1 by assumption. cbn [fst] in Henv1.
  destruct Henv1 as [Hle1 Hredis1 Htrace1].
  assert (redis w1 !! "restaurants"
          = Some {| ce_value := JSON.stringify (rows_value rows0);
                    ce_inserted := now w0; ce_ttl := 60 |}) as Hentry1.
  { rewrite Hredis1. apply lookup_insert_eq. }
  assert (redis_get w1 "restaurants" = Some (JSON.stringify (rows_value rows0))) as Hget1.
  { unfold redis_get. rewrite Hentry1. unfold live. cbn [ce_inserted ce_ttl ce_value].
    destruct (now w1 <? now w0 + 60) eqn:Hlt; [reflexivity | lia]. }
  rewrite (get_hit w1 rows0 Hup1 Hget1) in Henv2 |- *. cbn [fst] in Henv2.
  destruct Henv2 as [Hle2 Hredis2 Htrace2]. cbn [log now redis trace] in *.
  assert (redis_get w2 "restaurants" = None) as Hget2.
  { unfold redis_get. rewrite Hredis2, Hentry1. unfold live.
    cbn [ce_inserted ce_ttl ce_value].
    destruct (now w2 <? now w0 + 60) eqn:Hlt; [lia | reflexivity]. }
  assert (truthy (redis_get w2 "restaurants") = false) as Hcold2
    by (rewrite Hget2; reflexivity).
  assert (truthy (redis_get (without "restaurants" w2) "restaurants") = false) as Hcold2'.
  { unfold redis_get, without. cbn [redis set_redis]. rewrite lookup_delete_eq. reflexivity. }
  rewrite (get_miss w0 rows0), (get_miss w2 rows2) by assumption.
  rewrite (get_miss (without "restaurants" w2) rows2) by assumption.
  cbn [fst snd stored set_redis log trace redis].
  rewrite !loader_calls_snoc. cbn [is_load].
  repeat split; try lia; try exact Hget1; try exact Hget2.
  - apply lookup_insert_eq.
  - unfold redis_setEx, without. cbn [redis set_redis now].
    rewrite insert_delete_eq. reflexivity.
Qed.

Lemma step_get (w : World) :
  redis_up w = true ->
  truthy (redis_get w "restaurants") = false ->
  step_thread perform w get_restaurants
  = (log (EvClientGet "restaurants") w, load_and_store).
Proof.
  intros Hup Hcold. unfold get_restaurants. cbn. rewrite Hup. cbn.
  rewrite Hcold. reflexivity.
Qed.

Lemma step_load (w : World) (rows : list Row) :
  db_up w = true -> restaurants w = Some rows ->
  step_thread perform w load_and_store
  = (log (EvDbQuery SelectRestaurants) w, store_and_respond rows).
Proof.
  intros Hdb Hrows. unfold load_and_store. cbn. unfold db_query.
  cbn [db_up log restaurants]. rewrite Hdb, Hrows. reflexivity.
Qed.

Lemma step_load_fails (w : World) :
  db_up w = false \/ restaurants w = None ->
  step_thread perform w load_and_store
  = (log (EvDbQuery SelectRestaurants) w, Throw DbError).
Proof.
  intros Hfail. unfold load_and_store. cbn. unfold db_query.
  cbn [db_up log restaurants]. destruct (db_up w); [|reflexivity].
  destruct Hfail as [Hfail | ->]; [discriminate | reflexivity].
Qed.

Lemma step_store (w : World) (rows : list Row) :
  redis_up w = true ->
  step_thread perform w (store_and_respond rows)
  = (store rows w, Ret (res_json (rows_value rows))).
Proof. intros Hup. unfold store_and_respond. cbn. rewrite Hup. reflexivity. Qed.

Lemma step_get_cases (w : World) :
  step_thread perform w get_restaurants
  = (log (EvClientGet "restaurants") w,
     if redis_up w then
       if truthy (redis_get w "restaurants") then
         match JSON.parse (default "" (redis_get w "restaurants")) with
         | Some v => Ret (res_json v)
         | None => Throw SyntaxError
         end
       else load_and_store
     else Throw RedisError).
Proof. unfold get_restaurants. cbn. destruct (redis_up w); reflexivity. Qed.

Lemma step_load_cases (w : World) :
  step_thread perform w load_and_store
  = (log (EvDbQuery SelectRestaurants) w,
     if db_up w then
       match restaurants w with
       | Some rows => store_and_respond rows
       | None => Throw DbError
       end
     else Throw DbError).
Proof.
  unfold load_and_store. cbn. unfold db_query. cbn [db_up log restaurants].
  destruct (db_up w); [destruct (restaurants w) |]; reflexivity.
Qed.

Lemma step_store_cases (w : World) (rows : list Row) :
  step_thread perform w (store_and_respond rows)
  = (if redis_up w then store rows w
     else log (EvClientSetEx "restaurants" 60 (JSON.stringify (rows_value rows))) w,
     if redis_up w then Ret (res_json (rows_value rows)) else Throw RedisError).
Proof. unfold store_and_respond. cbn. destruct (redis_up w); reflexivity. Qed.

(** A step of a request runs the query at most as often as its stage
    allows. *)
Lemma stage_step (w : World) (t : Prog Op Response) (p : nat) :
  stage t p ->
  exists p',
    stage (step_thread perform w t).2 p' /\
    (loader_calls (trace (step_thread perform w t).1) + p'
     <= loader_calls (trace w) + p)%nat.
Proof.
  intros [ | | rows | r | e ].
  - rewrite step_get_cases. cbn [fst snd log trace]. rewrite loader_calls_snoc.
    cbn [is_load].
    destruct (redis_up w); [destruct (truthy _); [destruct (JSON.parse _) |] |].
    + exists 0%nat. split; [constructor | lia].
    + exists 0%nat. split; [constructor | lia].
    + exists 1%nat. split; [constructor | lia].
    + exists 0%nat. split; [constructor | lia].
  - rewrite step_load_cases. cbn [fst snd log trace]. rewrite loader_calls_snoc.
    cbn [is_load]. exists 0%nat.
    destruct (db_up w); [destruct (restaurants w) |]; (split; [constructor | lia]).
  - rewrite step_store_cases. cbn [fst snd]. exists 0%nat.
    destruct (redis_up w); cbn [store set_redis log trace];
      rewrite loader_calls_snoc; cbn [is_load]; (split; [constructor | lia]).
  - exists 0%nat. cbn. split; [constructor | lia].
  - exists 0%nat. cbn. split; [constructor | lia].
Qed.

Lemma list_sum_insert (ps : list nat) (i p p' : nat) :
  ps !! i = Some p ->
  (list_sum (<[i := p']> ps) + p = list_sum ps + p')%nat.
Proof.
  revert i. induction ps as [|q ps IH]; intros [|i] Hi; try discriminate.
  - injection Hi as ->.
    change (p' + list_sum ps + p = p + list_sum ps + p')%nat. lia.
  - specialize (IH i Hi).
    change (q + list_sum (<[i := p']> ps) + p = q + list_sum ps + p')%nat. lia.
Qed.

Lemma pool_step (w : World) (pool : list (Prog Op Response)) (ps : list nat) (i : nat) :
  Forall2 stage pool ps ->
  exists ps',
    Forall2 stage (step_pool perform (w, pool) i).2 ps' /\
    (loader_calls (trace (step_pool perform (w, pool) i).1) + list_sum ps'
     <= loader_calls (trace w) + list_sum ps)%nat.
Proof.
  intros Hall. unfold step_pool. cbn [fst snd].
  destruct (pool !! i) as [t|] eqn:Hi.
  - destruct (Forall2_lookup_l _ _ _ _ _ Hall Hi) as (p & Hp & Hstage).
    destruct (stage_step w t p Hstage) as (p' & Hstage' & Hle).
    destruct (step_thread perform w t) as [w' t']. cbn [fst snd] in *.
    exists (<[i := p']> ps). split.
    + apply Forall2_insert; assumption.
    + pose proof (list_sum_insert ps i p p' Hp). lia.
  - exists ps. cbn [fst snd]. split; [exact Hall | lia].
Qed.

(** Over any schedule, no more queries are run than the stages allow. *)
Lemma schedule_bound (sched : list nat) (w : World)
    (pool : list (Prog Op Response)) (ps : list nat) :
  Forall2 stage pool ps ->
  (loader_calls (trace (run_pool sched (w, pool)).1)
   <= loader_calls (trace w) + list_sum ps)%nat.
Proof.
  revert w pool ps. induction sched as [|i sched IH]; intros w pool ps Hall.
  - cbn. lia.
  - unfold run_pool, run_schedule. cbn [foldl].
    destruct (pool_step w pool ps i Hall) as (ps' & Hall' & Hle).
    destruct (step_pool perform (w, pool) i) as [w' pool']. cbn [fst snd] in *.
    specialize (IH w' pool' ps' Hall'). unfold run_pool, run_schedule in IH. lia.
Qed.

Lemma cold_pool_stage (n : nat) : Forall2 stage (cold_pool n) (replicate n 1%nat).
Proof.
  unfold cold_pool. induction n as [|n IH]; cbn; constructor;
    [apply stage_start | exact IH].
Qed.

Lemma list_sum_replicate (n c : nat) : list_sum (replicate n c) = (n * c)%nat.
Proof.
  induction n as [|n IH]; [reflexivity |].
  change (list_sum (replicate (S n) c)) with (c + list_sum (replicate n c))%nat.
  rewrite IH. lia.
Qed.

Lemma moves_cons (i j : nat) (s : list nat) :
  moves i (j :: s) = ((if decide (j = i) then 1 else 0) + moves i s)%nat.
Proof. unfold moves. rewrite filter_cons. destruct (decide (j = i)); reflexivity. Qed.

Lemma moves_app (i : nat) (a b : list nat) :
  moves i (a ++ b) = (moves i a + moves i b)%nat.
Proof. unfold moves. rewrite filter_app, length_app. reflexivity. Qed.

Lemma moves_pos (i : nat) (s : list nat) : (0 < moves i s)%nat -> i ∈ s.
Proof.
  induction s as [|j s IH]; [cbn; lia |]. rewrite moves_cons.
  destruct (decide (j = i)) as [-> | _]; [left | right; apply IH; lia].
Qed.

Lemma all_moved_spec (k n : nat) (s : list nat) (i : nat) :
  all_moved k n s = true -> (i < n)%nat -> (k <= moves i s)%nat.
Proof.
  unfold all_moved. rewrite forallb_forall. intros H Hi.
  apply Nat.leb_le, H, in_seq. lia.
Qed.

Lemma none_moved_spec (k : nat) (s : list nat) (i : nat) :
  (0 < k)%nat -> none_moved k s = true -> (moves i s < k)%nat.
Proof.
  unfold none_moved. rewrite forallb_forall. intros Hk H.
  destruct (moves i s) as [|m] eqn:Hm; [exact Hk |]. rewrite <- Hm.
  apply Nat.ltb_lt, H, list_elem_of_In, moves_pos. lia.
Qed.

Lemma advance_lookup (s : list nat) :
  forall (cs : list nat) (i : nat),
    advance s cs !! i = (fun c => c + moves i s)%nat <$> cs !! i.
Proof.
  induction s as [|j s IH]; intros cs i.
  - cbn. destruct (cs !! i); cbn; [f_equal; lia | reflexivity].
  - unfold advance in *. cbn [foldl]. rewrite IH, moves_cons.
    destruct (decide (j = i)) as [-> | Hne].
    + rewrite list_lookup_alter_eq. destruct (cs !! i); cbn; [f_equal; lia | reflexivity].
    + rewrite list_lookup_alter_ne by done.
      destruct (cs !! i); cbn; [f_equal; lia | reflexivity].
Qed.

Lemma advance_length (s : list nat) (cs : list nat) : length (advance s cs) = length cs.
Proof.
  revert cs. induction s as [|j s IH]; intros cs; [reflexivity |].
  unfold advance in *. cbn [foldl]. rewrite IH. apply length_alter.
Qed.

Lemma map_lookup {A B : Type} (f : A -> B) (l : list A) (i : nat) :
  map f l !! i = f <$> l !! i.
Proof. revert i. induction l as [|x l IH]; intros [|i]; cbn; auto. Qed.

Lemma map_alter_insert {A B : Type} (f : A -> B) (g : A -> A) (l : list A) (i : nat) (x : A) :
  l !! i = Some x -> map f (alter g i l) = <[i := f (g x)]> (map f l).
Proof.
  revert i. induction l as [|y l IH]; intros [|i] Hi; try discriminate.
  - injection Hi as ->. reflexivity.
  - cbn. f_equal. apply IH, Hi.
Qed.

Lemma alter_beyond {A : Type} (g : A -> A) (l : list A) (i : nat) :
  l !! i = None -> alter g i l = l.
Proof.
  revert i. induction l as [|y l IH]; intros [|i] Hi; try discriminate; [reflexivity.. |].
  cbn. f_equal. apply IH, Hi.
Qed.

Lemma map_replicate {A B : Type} (f : A -> B) (n : nat) (x : A) :
  map f (replicate n x) = replicate n (f x).
Proof. induction n as [|n IH]; cbn; [reflexivity | f_equal; exact IH]. Qed.

(** The next call of a request that found the key cold, with Redis and
    Postgres answering and the table holding [rows]. *)
Lemma step_after_calls (w : World) (rows : list Row) (cs : list nat) (i c : nat) :
  redis_up w = true -> db_up w = true -> restaurants w = Some rows ->
  cs !! i = Some c ->
  (c = 0%nat -> truthy (redis_get w "restaurants") = false) ->
  exists w',
    step_pool perform (w, map (after_calls rows) cs) i
    = (w', map (after_calls rows) (alter S i cs)) /\
    redis_up w' = true /\ db_up w' = true /\ restaurants w' = Some rows /\
    (loader_calls (trace w') + to_load (S c) = loader_calls (trace w) + to_load c)%nat /\
    ((c <= 1)%nat -> redis w' = redis w /\ now w' = now w).
Proof.
  intros Hup Hdb Hrows Hc Hcold. unfold step_pool. cbn [fst snd].
  rewrite map_lookup, Hc. cbn [fmap option_fmap option_map].
  rewrite (map_alter_insert _ _ _ _ _ Hc).
  destruct c as [|[|[|c]]]; cbn [after_calls].
  - rewrite (step_get w Hup (Hcold eq_refl)). eexists. split; [reflexivity |].
    cbn [log redis_up db_up restaurants trace redis now]. rewrite loader_calls_snoc.
    cbn. repeat split; try assumption; lia.
  - rewrite (step_load w rows Hdb Hrows). eexists. split; [reflexivity |].
    cbn [log redis_up db_up restaurants trace redis now]. rewrite loader_calls_snoc.
    cbn. repeat split; try assumption; lia.
  - rewrite (step_store w rows Hup). eexists. split; [reflexivity |].
    cbn [store set_redis log redis_up db_up restaurants trace]. rewrite loader_calls_snoc.
    cbn. repeat split; try assumption; lia.
  - cbn [step_thread]. eexists. split; [reflexivity |].
    cbn. repeat split; try assumption; lia.
Qed.

(** Requests that found the key cold, over any schedule on which none
    reads the cache after a store: each is where the number of its calls
    says, and the query has run once for each that is past it. *)
Lemma run_after_calls (rows : list Row) (s : list nat) :
  forall (w : World) (cs : list nat),
    redis_up w = true -> db_up w = true -> restaurants w = Some rows ->
    (truthy (redis_get w "restaurants") = false /\
     (forall i c, cs !! i = Some c -> (c + moves i s <= 2)%nat)) \/
    (forall i c, cs !! i = Some c -> (1 <= c)%nat) ->
    exists w',
      run_pool s (w, map (after_calls rows) cs)
      = (w', map (after_calls rows) (advance s cs)) /\
      redis_up w' = true /\ db_up w' = true /\ restaurants w' = Some rows /\
      (loader_calls (trace w') + list_sum (map to_load (advance s cs))
       = loader_calls (trace w) + list_sum (map to_load cs))%nat.
Proof.
  induction s as [|j s IH]; intros w cs Hup Hdb Hrows Hphase.
  - exists w. cbn. repeat split; assumption.
  - unfold run_pool, run_schedule, advance in *. cbn [foldl].
    destruct (cs !! j) as [c|] eqn:Hc.
    + destruct (step_after_calls w rows cs j c Hup Hdb Hrows Hc)
        as (w1 & Hstep & Hup1 & Hdb1 & Hrows1 & Hload & Hsame).
      { intros ->. destruct Hphase as [[Hcold _] | Hone]; [exact Hcold |].
        specialize (Hone j 0%nat Hc). lia. }
      rewrite Hstep.
      destruct (IH w1 (alter S j cs) Hup1 Hdb1 Hrows1) as (w2 & Hrun & Hup2 & Hdb2 & Hrows2 & Hsum).
      { destruct Hphase as [[Hcold Hfew] | Hone]; [left | right].
        - pose proof (Hfew j c Hc) as Hj. rewrite moves_cons in Hj.
          destruct (decide (j = j)); [|done].
          destruct Hsame as [Hredis Hnow]; [lia |]. split.
          + unfold redis_get in *. rewrite Hredis, Hnow. exact Hcold.
          + intros i c' Hi. destruct (decide (j = i)) as [<- | Hne].
            * rewrite list_lookup_alter_eq, Hc in Hi. injection Hi as <-. lia.
            * rewrite list_lookup_alter_ne in Hi by done.
              specialize (Hfew i c' Hi). rewrite moves_cons in Hfew.
              destruct (decide (j = i)); [done | lia].
        - intros i c' Hi. destruct (decide (j = i)) as [<- | Hne].
          + rewrite list_lookup_alter_eq, Hc in Hi. injection Hi as <-. lia.
          + rewrite list_lookup_alter_ne in Hi by done. apply (Hone i c' Hi). }
      exists w2. rewrite Hrun. repeat split; try assumption.
      rewrite Hsum. rewrite (map_alter_insert to_load S cs j c Hc).
      pose proof (list_sum_insert (map to_load cs) j (to_load c) (to_load (S c))) as Hins.
      rewrite map_lookup, Hc in Hins. specialize (Hins eq_refl). lia.
    + assert (step_pool perform (w, map (after_calls rows) cs) j
              = (w, map (after_calls rows) cs)) as ->.
      { unfold step_pool. cbn [fst snd]. rewrite map_lookup, Hc. reflexivity. }
      rewrite (alter_beyond _ _ _ Hc).
      apply IH; try assumption.
      destruct Hphase as [[Hcold Hfew] | Hone]; [left | right; exact Hone].
      split; [exact Hcold |]. intros i c Hi. specialize (Hfew i c Hi).
      rewrite moves_cons in Hfew. destruct (decide (j = i)); lia.
Qed.

Lemma list_sum_zero (f : nat -> nat) (cs : list nat) :
  Forall (fun c => f c = 0%nat) cs -> list_sum (map f cs) = 0%nat.
Proof.
  induction 1 as [|c cs Hc _ IH]; [reflexivity |].
  change (f c + list_sum (map f cs) = 0)%nat. lia.
Qed.

Lemma map_constant {A B : Type} (f : A -> B) (y : B) (l : list A) :
  Forall (fun x => f x = y) l -> map f l = replicate (length l) y.
Proof. induction 1 as [|x l Hx _ IH]; cbn; [reflexivity | f_equal; assumption]. Qed.

(** C3, as the code has it.  N concurrent GET /restaurants on the cold key
    share no fetch: over any schedule the query is run at most N times; and
    over every schedule [pre ++ post] on which all N requests read the
    cache ([pre] has each of them move) before the first of them stores its
    result (no request moves three times in [pre]) and all run to their
    end, it is run N times, once per request; the table being the same for
    all, every request responds with the same rows. *)
Theorem concurrent_reads_each_load (n : nat) (w : World) (rows : list Row)
    (sched pre post : list nat) :
  redis_up w = true -> db_up w = true -> restaurants w = Some rows ->
  truthy (redis_get w "restaurants") = false ->
  (loader_calls (trace (run_pool sched (w, cold_pool n)).1)
   <= loader_calls (trace w) + n)%nat /\
  (all_moved 1 n pre = true -> none_moved 3 pre = true ->
   all_moved 3 n (pre ++ post) = true ->
   (run_pool (pre ++ post) (w, cold_pool n)).2
   = replicate n (Ret (res_json (rows_value rows))) /\
   loader_calls (trace (run_pool (pre ++ post) (w, cold_pool n)).1)
   = (loader_calls (trace w) + n)%nat).
Proof.
  intros Hup Hdb Hrows Hcold. split.
  - pose proof (schedule_bound sched w _ _ (cold_pool_stage n)) as H.
    rewrite list_sum_replicate in H. lia.
  - intros Hread Hnone Hdone.
    assert (cold_pool n = map (after_calls rows) (replicate n 0%nat)) as ->
      by (rewrite map_replicate; reflexivity).
    unfold run_pool. rewrite run_schedule_app.
    destruct (run_after_calls rows pre w (replicate n 0%nat) Hup Hdb Hrows)
      as (w1 & Hrun1 & Hup1 & Hdb1 & Hrows1 & Hsum1).
    { left. split; [exact Hcold |]. intros i c Hi.
      apply lookup_replicate in Hi as [-> _].
      pose proof (none_moved_spec 3 pre i ltac:(lia) Hnone). lia. }
    unfold run_pool in Hrun1. rewrite Hrun1.
    destruct (run_after_calls rows post w1 (advance pre (replicate n 0%nat)) Hup1 Hdb1 Hrows1)
      as (w2 & Hrun2 & _ & _ & _ & Hsum2).
    { right. intros i c Hi. rewrite advance_lookup in Hi.
      destruct (replicate n 0%nat !! i) as [c0|] eqn:Hc0; [|discriminate].
      apply lookup_replicate in Hc0 as [-> Hlt]. injection Hi as <-.
      pose proof (all_moved_spec 1 n pre i Hread Hlt). lia. }
    unfold run_pool in Hrun2. rewrite Hrun2. cbn [fst snd].
    assert (Forall (fun c => (3 <= c)%nat) (advance post (advance pre (replicate n 0%nat))))
      as Hall.
    { apply Forall_lookup. intros i c Hi. rewrite !advance_lookup in Hi.
      destruct (replicate n 0%nat !! i) as [c0|] eqn:Hc0; [|discriminate].
      apply lookup_replicate in Hc0 as [-> Hlt]. injection Hi as <-.
      pose proof (all_moved_spec 3 n _ i Hdone Hlt) as H3. rewrite moves_app in H3. lia. }
    split.
    + rewrite (map_constant _ (Ret (res_json (rows_value rows)))).
      * rewrite !advance_length, length_replicate. reflexivity.
      * eapply Forall_impl; [exact Hall |]. intros [|[|[|c]]] Hc; cbn; [lia.. | reflexivity].
    + rewrite (list_sum_zero to_load) in Hsum2.
      * rewrite map_replicate, list_sum_replicate in Hsum1. cbn [to_load Nat.ltb Nat.leb] in Hsum1.
        lia.
      * eapply Forall_impl; [exact Hall |]. intros [|[|c]] Hc; cbn; [lia.. | reflexivity].
Qed.

(** C7, as the code has it.  When the query fails on a read of a cold
    key: the handler's promise rejects with the query's error; Redis is
    left as it was, so the key is as absent as before; the query was tried
    once, not again; and the next read, whenever it comes, still misses and
    runs the query anew, with the result the database then gives.  There
    are no waiters: among requests in flight, the step on which a request's
    query fails rejects that request and leaves every other request and
    Redis as they were; the rejected request never moves again, whatever
    runs after it; and every other request runs its own query, whose
    outcome is what the database gives at that moment. *)
Theorem failed_load_not_cached (w w' : World) :
  redis_up w = true ->
  truthy (redis_get w "restaurants") = false ->
  db_up w = false \/ restaurants w = None ->
  env_step (handle get_restaurants w).1 w' ->
  redis_up w' = true ->
  ((handle get_restaurants w).2 = Threw DbError /\
   redis (handle get_restaurants w).1 = redis w /\
   redis_get (handle get_restaurants w).1 "restaurants" = redis_get w "restaurants" /\
   loader_calls (trace (handle get_restaurants w).1) = (loader_calls (trace w) + 1)%nat) /\
  (truthy (redis_get w' "restaurants") = false /\
   loader_calls (trace (handle get_restaurants w').1) = (loader_calls (trace w') + 1)%nat /\
   (handle get_restaurants w').2
   = (if db_up w' then
        match restaurants w' with
        | Some rows => Returned (res_json (rows_value rows))
        | None => Threw DbError
        end
      else Threw DbError)) /\
  (forall (pool : list (Prog Op Response)) (i : nat) (sched : list nat),
     pool !! i = Some load_and_store ->
     let st := step_pool perform (w, pool) i in
     st = (log (EvDbQuery SelectRestaurants) w, <[i := Throw DbError]> pool) /\
     redis st.1 = redis w /\
     (forall j, j <> i -> st.2 !! j = pool !! j) /\
     (run_pool sched st).2 !! i = Some (Throw DbError)) /\
  (forall w2 : World,
     step_thread perform w2 load_and_store
     = (log (EvDbQuery SelectRestaurants) w2,
        if db_up w2 then
          match restaurants w2 with
          | Some rows => store_and_respond rows
          | None => Throw DbError
          end
        else Throw DbError)).
Proof.
  intros Hup Hcold Hfail Henv Hup'.
  rewrite (get_miss_fails w Hup Hcold Hfail) in Henv |- *. cbn [fst snd] in *.
  destruct Henv as [Hnow Hredis Htrace]. cbn [log now redis trace] in *.
  assert (truthy (redis_get w' "restaurants") = false) as Hcold'
    by (apply (falsy_later w w'); assumption).
  destruct (get_cold w' Hup' Hcold') as [Hcalls' Hout'].
  split; [|split; [|split]].
  - rewrite !loader_calls_snoc. cbn [is_load]. repeat split. lia.
  - repeat split; assumption.
  - intros pool i sched Hi.
    assert (step_pool perform (w, pool) i
            = (log (EvDbQuery SelectRestaurants) w, <[i := Throw DbError]> pool)) as Hst.
    { unfold step_pool. cbn [fst snd]. rewrite Hi.
      rewrite (step_load_fails w Hfail). reflexivity. }
    rewrite Hst. split; [reflexivity |]. cbn [fst snd log redis].
    split; [reflexivity |]. split.
    + intros j Hj. apply list_lookup_insert_ne. congruence.
    + apply ended_stays; [|discriminate]. cbn [snd].
      apply list_lookup_insert_eq. eapply lookup_lt_Some, Hi.
  - apply step_load_cases.
Qed.
End RestaurantFacts.

(** ** order-service *)

Section OrderFacts.
Import Order.

Lemma post_orders_unfold (w : World) :
  handle post_orders w =
  if db_up w then
    let id := uuid_of w (uuid_next w) in
    let w1 := set_orders (Some (table w ++ [{| row_id := id; row_status := "PLACED" |}])%list)
                (bump_uuid (set_orders (Some (table w)) w)) in
    if queue_up w then
      (set_queue (queue w ++ [{| job_name := "order.created"; job_orderId := id |}]) w1,
       Returned (res_json (JObject [("orderId", JString id); ("status", JString "PLACED")])))
    else (w1, Threw QueueError)
  else (w, Threw DbError).
Proof.
  destruct w as [du tbl qu q uo un].
  unfold handle, post_orders, table. cbn. unfold db_query. cbn.
  destruct du; [|reflexivity]. cbn. destruct qu; reflexivity.
Qed.

(** C10. A call of POST /orders that ends with a response (it does exactly
    when Postgres and the queue both take their calls) has added one row to
    [orders], with status "PLACED", and one job "order.created" to the
    queue, and has sent [{ orderId, status: "PLACED" }]; the row's id, the
    job's orderId and the response's orderId are the one value [uuid()]
    returned. *)
Theorem order_placed_once (w : World) :
  match (handle post_orders w).2 with
  | Returned resp =>
      db_up w = true /\ queue_up w = true /\
      exists id,
        id = uuid_of w (uuid_next w) /\
        orders (handle post_orders w).1
        = Some (table w ++ [{| row_id := id; row_status := "PLACED" |}])%list /\
        queue (handle post_orders w).1
        = (queue w ++ [{| job_name := "order.created"; job_orderId := id |}])%list /\
        resp = res_json (JObject [("orderId", JString id); ("status", JString "PLACED")])
  | Threw e =>
      (db_up w = false \/ queue_up w = false) /\ queue (handle post_orders w).1 = queue w
  end.
Proof.
  rewrite post_orders_unfold. cbv zeta.
  destruct (db_up w); [destruct (queue_up w) |]; cbn [fst snd].
  - split; [reflexivity |]. split; [reflexivity |]. eexists. repeat split.
  - split; [right; reflexivity | reflexivity].
  - split; [left; reflexivity | reflexivity].
Qed.

(** The first order of a fresh database. *)
Example first_order :
  handle post_orders example_world
  = ({| db_up := true; orders := Some [{| row_id := "a"; row_status := "PLACED" |}];
        queue_up := true;
        queue := [{| job_name := "order.created"; job_orderId := "a" |}];
        uuid_of := uuid_of example_world; uuid_next := 1 |},
     Returned (res_json (JObject [("orderId", JString "a"); ("status", JString "PLACED")]))).
Proof. reflexivity. Qed.
End OrderFacts.

(** ** payment-service *)

Section PaymentFacts.
Import Payment.

(** C8, as the code has it.  POST /payments answers
    [{ status: "PAYMENT_SUCCESS" }] exactly for the requests that
    [express.json()] lets through, and for any two of those the same
    response, whatever their headers and bodies: the handler ignores
    [req].  A request whose body the parser refuses never reaches the
    handler: it is answered with the status of the parser's error, 400, 413
    or 415. *)
Theorem payment_response_constant (Body : Type) (a1 a2 : Arrival Body) :
  (payments_app a1 = Handled (res_json (JObject [("status", JString "PAYMENT_SUCCESS")]))
   <-> exists b, arr_body a1 = inr b) /\
  ((exists b1, arr_body a1 = inr b1) -> (exists b2, arr_body a2 = inr b2) ->
   payments_app a1 = payments_app a2) /\
  (forall f, arr_body a1 = inl f ->
     payments_app a1 = Refused f /\
     reply_status (payments_app a1) = fault_status f /\
     (fault_status f = 400 \/ fault_status f = 413 \/ fault_status f = 415)) /\
  (forall (Body1 Body2 : Type) (req1 : Request Body1) (req2 : Request Body2),
     post_payments req1 = post_payments req2).
Proof.
  unfold payments_app. repeat split.
  - destruct (arr_body a1) as [f | b]; [discriminate | eauto].
  - intros [b Hb]. rewrite Hb. reflexivity.
  - intros [b1 ->] [b2 ->]. reflexivity.
  - rewrite H. reflexivity.
  - rewrite H. reflexivity.
  - destruct f; auto.
Qed.
End PaymentFacts.

(** ** auth-service *)

Section AuthFacts.
Import Auth.
#[local] Set Warnings "-clear-no-such-hyp".
Variable bcrypt_compare : string -> string -> bool.
Variable jwt_sign : Claims -> string -> string.

Lemma login_unfold (w : World) (req : LoginBody) :
  handle jwt_sign (login bcrypt_compare req) w =
  if db_up w && text_ok (email req) then
    match select_by_email w (email req) with
    | [] => (w, Returned (res_sendStatus 401))
    | u :: _ =>
        match password req with
        | None => (w, Threw BcryptError)
        | Some p =>
            if bcrypt_compare p (user_password u) then
              match jwt_secret w with
              | Some secret =>
                  if String.eqb secret "" then (w, Threw JwtError)
                  else
                    let token :=
                      jwt_sign {| claim_id := user_id u; claim_role := user_role u |} secret in
                    ({| db_up := db_up w; users := users w; jwt_secret := jwt_secret w;
                        issued := issued w ++ [token] |},
                     Returned (res_json (JObject [("token", JString token)])))
              | None => (w, Threw JwtError)
              end
            else (w, Returned (res_sendStatus 401))
        end
    end
  else (w, Threw DbError).
Proof.
  destruct w as [du us js iss], req as [e p]. cbn [db_up jwt_secret users issued email password].
  unfold handle, login. cbn.
  destruct (du && text_ok e); [|reflexivity].
  destruct (select_by_email _ e) as [|u rows]; [reflexivity |]. cbn.
  destruct p as [p|]; [|reflexivity]. cbn.
  destruct (bcrypt_compare p (user_password u)); [|reflexivity]. cbn.
  destruct js as [secret|]; [|reflexivity].
  destruct (String.eqb secret ""); reflexivity.
Qed.

(** C9, as the code has it.  POST /auth/login responds 401 exactly when
    the query is answered (Postgres answers, and the email is a TEXT value
    or missing) and no row has the given email or the given password does
    not match the hash of the row found.  It responds [{ token }] exactly
    when the query is answered, the row found matches the password and
    JWT_SECRET is set and not empty; the token is signed over that row's
    id and role, and is the one token issued.  In every other case there
    is no response: the handler throws, the query's error when the query
    is not answered, bcrypt's when a row is found and the body has no
    password, jsonwebtoken's when the password matches and JWT_SECRET is
    unset or empty.  A 401 and a throw issue no token. *)
Theorem login_401_iff (w : World) (req : LoginBody) :
  let rows := select_by_email w (email req) in
  let answered := db_up w = true /\ text_ok (email req) = true in
  let r := handle jwt_sign (login bcrypt_compare req) w in
  (r.2 = Returned (res_sendStatus 401) <->
   answered /\
   (rows = [] \/
    exists u p, head rows = Some u /\ password req = Some p /\
                bcrypt_compare p (user_password u) = false)) /\
  ((exists token, r.2 = Returned (res_json (JObject [("token", JString token)]))) <->
   answered /\
   exists u p secret,
     head rows = Some u /\ password req = Some p /\
     bcrypt_compare p (user_password u) = true /\
     jwt_secret w = Some secret /\ secret <> "") /\
  (forall u secret token,
     head rows = Some u -> jwt_secret w = Some secret ->
     r.2 = Returned (res_json (JObject [("token", JString token)])) ->
     token = jwt_sign {| claim_id := user_id u; claim_role := user_role u |} secret /\
     issued r.1 = (issued w ++ [token])%list) /\
  (forall e, r.2 = Threw e <->
     (e = DbError /\ ~ answered) \/
     (e = BcryptError /\ answered /\ rows <> [] /\ password req = None) \/
     (e = JwtError /\ answered /\
      (exists u p, head rows = Some u /\ password req = Some p /\
                   bcrypt_compare p (user_password u) = true) /\
      (jwt_secret w = None \/ jwt_secret w = Some ""))) /\
  (forall resp, r.2 = Returned resp ->
     resp = res_sendStatus 401 \/
     exists token, resp = res_json (JObject [("token", JString token)])) /\
  ((forall token, r.2 <> Returned (res_json (JObject [("token", JString token)]))) ->
   r.1 = w).
Proof.
  cbv zeta. rewrite login_unfold.
  destruct (db_up w) eqn:Hdb; cbn [andb].
  2:{ cbn [fst snd]. repeat split; try naive_solver congruence. }
  destruct (text_ok (email req)) eqn:Htext.
  2:{ cbn [fst snd]. repeat split; try naive_solver congruence. }
  destruct (select_by_email w (email req)) as [|u rest] eqn:Hrows.
  { cbn [fst snd head]. repeat split; try naive_solver congruence. }
  cbn [head].
  destruct (password req) as [p|] eqn:Hp.
  2:{ cbn [fst snd]. repeat split; try naive_solver congruence. }
  destruct (bcrypt_compare p (user_password u)) eqn:Hcmp.
  2:{ cbn [fst snd]. repeat split; try naive_solver congruence. }
  destruct (jwt_secret w) as [secret|] eqn:Hsecret.
  2:{ cbn [fst snd]. repeat split; try naive_solver congruence. }
  destruct (String.eqb_spec secret "") as [-> | Hne].
  { cbn [fst snd]. repeat split; try naive_solver congruence. }
  cbn [fst snd issued]. repeat split; try naive_solver congruence.
Qed.
End AuthFacts.

(** ** api-gateway *)

Section GatewayFacts.
Import Gateway.

(** A path taken by a mount of at least two characters starts with those
    two, up to the case of letters. *)
Lemma mount_matches_head (a1 a2 : ascii) (p' path : string) :
  mount_matches (String a1 (String a2 p')) path = true ->
  exists c1 c2 rest,
    path = String c1 (String c2 rest) /\ lower a1 = lower c1 /\ lower a2 = lower c2.
Proof.
  unfold mount_matches. destruct path as [|c1 [|c2 rest]]; cbn [strip].
  - discriminate.
  - destruct (Ascii.eqb (lower a1) (lower c1)); discriminate.
  - destruct (Ascii.eqb_spec (lower a1) (lower c1)) as [H1|]; [|discriminate].
    destruct (Ascii.eqb_spec (lower a2) (lower c2)) as [H2|]; [|discriminate].
    intros _. eauto 6.
Qed.

(** Two mounts whose second characters differ take no path in common. *)
Lemma mounts_exclusive (a1 a2 b1 b2 : ascii) (a' b' path : string) :
  lower a2 <> lower b2 ->
  mount_matches (String a1 (String a2 a')) path = true ->
  mount_matches (String b1 (String b2 b')) path = false.
Proof.
  intros Hne Ha. destruct (mount_matches (String b1 (String b2 b')) path) eqn:Hb;
    [|reflexivity].
  destruct (mount_matches_head _ _ _ _ Ha) as (c1 & c2 & rest & -> & _ & Ha2).
  destruct (mount_matches_head _ _ _ _ Hb) as (d1 & d2 & rest' & [= <- <- <-] & _ & Hb2).
  congruence.
Qed.

Lemma route_Some (routes : list Route) (p : string) (r : Route) :
  route routes p = Some r -> r ∈ routes /\ mount_matches (prefix r) p = true.
Proof.
  induction routes as [|r' routes IH]; cbn [route]; [discriminate |].
  destruct (mount_matches (prefix r') p) eqn:Hr.
  - intros [= <-]. split; [left | exact Hr].
  - intros H. destruct (IH H). split; [right |]; assumption.
Qed.



Lemma body_accepted (req : Request) : body_parses req = true -> body req = Accepted.
Proof. unfold body_parses. destruct (body req); [reflexivity | discriminate]. Qed.

Lemma gw_step_attempts (st : GwState) (ev : GwEvent) :
  attempts (gw_step st ev)
  = (attempts st ++ match forward_due ev with Some a => [a] | None => [] end)%list.
Proof.
  destruct ev as [t id req | t id result]; cbn [gw_step forward_due].
  - unfold body_parses.
    destruct (body req); [destruct (route gateway_routes (path req)) |];
      cbn [forward respond attempts]; rewrite ?app_nil_r; reflexivity.
  - destruct (is_inflight id st); cbn [respond settle attempts];
      rewrite app_nil_r; reflexivity.
Qed.

(** The forwards of a run are those its requests are due, one for one. *)
Lemma gw_run_attempts (evs : list GwEvent) (st : GwState) :
  attempts (gw_run evs st) = (attempts st ++ omap forward_due evs)%list.
Proof.
  revert st. induction evs as [|ev evs IH]; intros st.
  - cbn. rewrite app_nil_r. reflexivity.
  - unfold gw_run in *. cbn [foldl]. rewrite IH, gw_step_attempts.
    rewrite <- app_assoc. f_equal.
    change (omap forward_due (ev :: evs))
      with (match forward_due ev with
            | Some a => a :: omap forward_due evs
            | None => omap forward_due evs
            end).
    destruct (forward_due ev); reflexivity.
Qed.

(** C4, as the code has it.  The gateway keeps no failure count and has
    no Open state: after any history of requests and failed forwards, a
    request under a mounted prefix whose body parses is forwarded, one
    attempt to the mount's target, and no response is sent in its place;
    over the whole history every such request was forwarded. *)
Theorem gateway_always_forwards (history : list GwEvent) (t : Z) (id : nat)
    (req : Request) (r : Route) :
  body_parses req = true ->
  route gateway_routes (path req) = Some r ->
  let st := gw_run history gw_init in
  attempts st = omap forward_due history /\
  attempts (gw_step st (Arrive t id req)) = (attempts st ++ [(id, target r)])%list /\
  inflight (gw_step st (Arrive t id req)) = (inflight st ++ [(id, target r)])%list /\
  responses (gw_step st (Arrive t id req)) = responses st.
Proof.
  intros Hbody Hroute st. split; [apply gw_run_attempts |].
  cbn [gw_step]. rewrite (body_accepted req Hbody), Hroute. repeat split.
Qed.


(** Against C4: the sixth request to /orders, right after five failed
    forwards in a row, is forwarded like the first. *)
Lemma sixth_request_still_forwarded :
  let st := gw_run five_failures gw_init in
  let st' := gw_step st (Arrive 5 5 {| path := "/orders/6"; body := Accepted |}) in
  responses st = [(0, ProxyError); (1, ProxyError); (2, ProxyError);
                  (3, ProxyError); (4, ProxyError)]%nat /\
  attempts_of 5 st' = ["http://order-service:4003"] /\
  attempts_of 5 st' <> [] /\
  responses st' = responses st.
Proof. vm_compute. repeat split; discriminate. Qed.

End GatewayFacts.

(** ** The theorems at work on the examples *)

Section Witnesses.
Import Restaurant.

Lemma example_warm_reachable : reachable example_warm.
Proof.
  apply (reach_env (handle get_restaurants example_world).1).
  - apply reachable_run; [apply reach_init; reflexivity | apply request_get].
  - constructor; [change (0 <= 30); lia | reflexivity | reflexivity].
Defined.

Lemma cached_read_skips_loader_witness :
  redis_get example_warm "restaurants" = Some example_text /\
  exists body,
    JSON.parse example_text = Some body /\ JSON.stringify body = example_text /\
    handle get_restaurants example_warm
    = (log (EvClientGet "restaurants") example_warm, Returned (res_json body)) /\
    trace (handle get_restaurants example_warm).1
    = (trace example_warm ++ [EvClientGet "restaurants"])%list /\
    loader_calls (trace (handle get_restaurants example_warm).1)
    = loader_calls (trace example_warm).
Proof.
  split; [vm_compute; reflexivity |].
  apply (cached_read_skips_loader example_warm example_text).
  - exact example_warm_reachable.
  - reflexivity.
  - vm_compute. reflexivity.
Defined.

Lemma cache_served_for_sixty_seconds_witness :
  (now example_world = 0 /\ now example_warm = 30 /\ now example_expired = 61) /\
  (loader_calls (trace (handle get_restaurants example_world).1) = 1%nat /\
   (handle get_restaurants example_warm).2 = Returned (res_json (rows_value example_rows)) /\
   loader_calls (trace (handle get_restaurants example_warm).1) = 1%nat /\
   redis_get example_expired "restaurants" = None /\
   loader_calls (trace (handle get_restaurants example_expired).1) = 2%nat).
Proof.
  split; [repeat split |].
  destruct (cache_served_for_sixty_seconds example_world example_warm example_expired
              example_rows example_rows) as ((H0 & Hn0 & _) & (_ & H1 & Hn1) & (Hg2 & H2 & Hn2) & _).
  - reflexivity.
  - reflexivity.
  - reflexivity.
  - vm_compute. reflexivity.
  - constructor; [change (0 <= 30); lia | reflexivity | reflexivity].
  - reflexivity.
  - change (30 < 0 + 60). lia.
  - constructor; [change (30 <= 61); lia | reflexivity | reflexivity].
  - reflexivity.
  - reflexivity.
  - reflexivity.
  - change (0 + 60 <= 61). lia.
  - rewrite H0, H1, H2. cbn [fst snd].
    split; [exact Hn0 |]. split; [reflexivity |]. split; [exact Hn1 |].
    split; [exact Hg2 | exact Hn2].
Defined.

Lemma concurrent_reads_each_load_witness :
  (loader_calls (trace (run_pool [0; 0; 0; 1; 1; 1]%nat (example_world, cold_pool 2)).1)
   <= loader_calls (trace example_world) + 2)%nat /\
  (run_pool ([0; 1; 0]%nat ++ [0; 1; 1]%nat)%list (example_world, cold_pool 2)).2
  = replicate 2 (Ret (res_json (rows_value example_rows))) /\
  loader_calls (trace (run_pool ([0; 1; 0]%nat ++ [0; 1; 1]%nat)%list (example_world, cold_pool 2)).1)
  = (loader_calls (trace example_world) + 2)%nat.
Proof.
  destruct (concurrent_reads_each_load 2 example_world example_rows
              [0; 0; 0; 1; 1; 1]%nat [0; 1; 0]%nat [0; 1; 1]%nat)
    as [Hbound Hall]; [reflexivity.. |].
  split; [exact Hbound |]. apply Hall; reflexivity.
Defined.

(** Against C3: two requests on the cold key, each making its calls in
    turn, run the query twice. *)
Lemma concurrent_reads_load_twice :
  let st := run_pool [0; 1; 0; 1; 0; 1]%nat (example_world, cold_pool 2) in
  map finished st.2
  = [Some (Returned (res_json (rows_value example_rows)));
     Some (Returned (res_json (rows_value example_rows)))] /\
  loader_calls (trace st.1) = 2%nat /\
  loader_calls (trace st.1) <> 1%nat.
Proof. vm_compute. repeat split; discriminate. Qed.

Lemma failed_load_not_cached_witness :
  ((handle get_restaurants example_no_table).2 = Threw DbError /\
   redis (handle get_restaurants example_no_table).1 = redis example_no_table /\
   redis_get (handle get_restaurants example_no_table).1 "restaurants"
   = redis_get example_no_table "restaurants" /\
   loader_calls (trace (handle get_restaurants example_no_table).1)
   = (loader_calls (trace example_no_table) + 1)%nat) /\
  (truthy (redis_get example_retry "restaurants") = false /\
   loader_calls (trace (handle get_restaurants example_retry).1)
   = (loader_calls (trace example_retry) + 1)%nat /\
   (handle get_restaurants example_retry).2 = Threw DbError) /\
  (run_pool [1; 1]%nat
     (step_pool perform (example_no_table, [load_and_store; load_and_store]) 0)).2 !! 0%nat
  = Some (Throw DbError).
Proof.
  destruct (failed_load_not_cached example_no_table example_retry)
    as (Hfirst & Hnext & Hpool & _).
  - reflexivity.
  - reflexivity.
  - right. reflexivity.
  - constructor; [change (0 <= 5); lia | reflexivity | reflexivity].
  - reflexivity.
  - split; [exact Hfirst |]. split; [exact Hnext |].
    apply (Hpool [load_and_store; load_and_store] 0%nat [1; 1]%nat). reflexivity.
Defined.

(** Against C7: two reads on the cold key in flight together.  The first
    one's query fails, the table not existing yet; a POST creates the
    table meanwhile; the second read, which missed with the first, runs
    its own query, responds with the rows and caches them.  The failure
    went to the first caller alone. *)
Lemma failed_load_spares_concurrent_read :
  let st := run_pool RestaurantRuns.example_race_schedule
              (example_no_table, RestaurantRuns.example_race) in
  let rows := [{| row_id := "a"; row_name := Some "Idli House" |}] in
  map finished st.2
  = [Some (Threw DbError);
     Some (Returned (res_json (rows_value rows)));
     Some (Returned (res_json (JObject [("id", JString "a")])))] /\
  redis_get st.1 "restaurants" = Some (JSON.stringify (rows_value rows)) /\
  loader_calls (trace st.1) = 2%nat.
Proof. vm_compute. repeat split. Qed.
End Witnesses.

Section PaymentWitnesses.
Import Payment.

Lemma payment_response_constant_witness :
  payments_app example_paid
  = Handled (res_json (JObject [("status", JString "PAYMENT_SUCCESS")])) /\
  payments_app example_paid
  = payments_app {| arr_headers := []; arr_body := inr JNull |} /\
  reply_status (payments_app example_broken) = 400.
Proof.
  destruct (payment_response_constant JsValue example_paid
              {| arr_headers := []; arr_body := inr JNull |})
    as (Hok & Hsame & _ & _).
  destruct (payment_response_constant JsValue example_broken example_paid)
    as (_ & _ & Hrefused & _).
  split; [apply Hok; eexists; reflexivity |].
  split; [apply Hsame; eexists; reflexivity |].
  destruct (Hrefused Malformed eq_refl) as (_ & Hstatus & _). exact Hstatus.
Defined.

(** Against C8: a request whose JSON body breaks off is answered 400 by
    the parser, not [{ status: "PAYMENT_SUCCESS" }]: two requests to
    POST /payments that differ in their bodies get different responses. *)
Lemma payment_broken_body_refused :
  payments_app example_broken = Refused Malformed /\
  reply_status (payments_app example_broken) = 400 /\
  payments_app example_paid
  = Handled (res_json (JObject [("status", JString "PAYMENT_SUCCESS")])) /\
  payments_app example_broken <> payments_app example_paid.
Proof. repeat split. discriminate. Qed.
End PaymentWitnesses.

Section MoreWitnesses.
Import Auth Gateway.

Lemma login_401_iff_witness :
  (handle example_sign
     (login example_compare {| email := Some "asha@example.com"; password := Some "idli" |})
     example_world).2
  = Returned (res_sendStatus 401) /\
  (exists token,
     (handle example_sign
        (login example_compare
           {| email := Some "asha@example.com"; password := Some "tiffin" |})
        example_world).2
     = Returned (res_json (JObject [("token", JString token)]))).
Proof.
  split.
  - apply (login_401_iff example_compare example_sign example_world
             {| email := Some "asha@example.com"; password := Some "idli" |}).
    split; [split; reflexivity |]. right. eexists _, _. repeat split.
  - apply (login_401_iff example_compare example_sign example_world
             {| email := Some "asha@example.com"; password := Some "tiffin" |}).
    split; [split; reflexivity |]. eexists _, _, _. repeat split. discriminate.
Defined.

(** Against C9: a login that is no 401 case and gets no token.  With the
    right email and password and JWT_SECRET empty, [jwt.sign] throws; with
    Postgres not answering, the query does.  Neither call sends a
    response. *)
Lemma login_neither_401_nor_token :
  let req := {| email := Some "asha@example.com"; password := Some "tiffin" |} in
  head (select_by_email example_keyless (email req))
  = Some {| user_id := "u-1"; user_email := "asha@example.com";
            user_password := "$2a$08$tiffin"; user_role := "USER" |} /\
  example_compare "tiffin" "$2a$08$tiffin" = true /\
  handle example_sign (login example_compare req) example_keyless
  = (example_keyless, Threw JwtError) /\
  handle example_sign (login example_compare req) example_db_down
  = (example_db_down, Threw DbError).
Proof. vm_compute. repeat split. Qed.

Lemma gateway_always_forwards_witness :
  let st := gw_run five_failures gw_init in
  attempts st = omap forward_due five_failures /\
  attempts (gw_step st (Arrive 5 5 orders_request))
  = (attempts st ++ [(5%nat, target orders_route)])%list /\
  inflight (gw_step st (Arrive 5 5 orders_request))
  = (inflight st ++ [(5%nat, target orders_route)])%list /\
  responses (gw_step st (Arrive 5 5 orders_request)) = responses st.
Proof.
  apply (gateway_always_forwards five_failures 5 5 orders_request orders_route);
    reflexivity.
Defined.

End MoreWitnesses.

(** * Further properties of the handlers *)

(** ** restaurant-service: POST /restaurants and the cache *)

Section RestaurantRunFacts.
Import Restaurant RestaurantRuns.

Lemma post_restaurants_unfold (w : World) (req : PostBody) :
  handle (post_restaurants req) w =
  if db_up w then
    let id := uuid_of w (uuid_next w) in
    let w' := log (EvDbQuery (InsertRestaurant id (body_name req)))
                (bump_uuid (log EvUuid
                   (set_restaurants (Some (default [] (restaurants w)))
                      (log (EvDbQuery CreateRestaurants) w)))) in
    if text_ok (body_name req) then
      (set_restaurants (Some (default [] (restaurants w) ++ [new_row id req])%list) w',
       Returned (res_json (JObject [("id", JString id)])))
    else (w', Threw DbError)
  else (log (EvDbQuery CreateRestaurants) w, Threw DbError).
Proof.
  destruct w as [t m ru du tbl uo un tr].
  unfold handle, post_restaurants. cbn. unfold db_query. cbn.
  destruct du; cbn; [|reflexivity].
  destruct (text_ok (body_name req)); reflexivity.
Qed.

(** X1. POST /restaurants responds exactly when Postgres answers and the
    body's name is a TEXT value (a string without the code unit 0) or
    missing; it has then added one row, the new id with the body's name
    (NULL when the body has none), after the rows already there (creating
    the table if need be), and sent the id.  Otherwise it throws the
    query's error: with Postgres not answering nothing has changed; with a
    name Postgres refuses the table has been created if need be and has no
    new row.  It never touches Redis. *)
Theorem post_adds_one_row (w : World) (req : PostBody) :
  let r := handle (post_restaurants req) w in
  let id := uuid_of w (uuid_next w) in
  match r.2 with
  | Returned resp =>
      db_up w = true /\ text_ok (body_name req) = true /\
      resp = res_json (JObject [("id", JString id)]) /\
      restaurants r.1 = Some (default [] (restaurants w) ++ [new_row id req])%list /\
      uuid_next r.1 = S (uuid_next w) /\
      redis r.1 = redis w
  | Threw e =>
      e = DbError /\ redis r.1 = redis w /\
      (db_up w = false /\ restaurants r.1 = restaurants w \/
       db_up w = true /\ text_ok (body_name req) = false /\
       restaurants r.1 = Some (default [] (restaurants w)))
  end.
Proof.
  cbv zeta. rewrite post_restaurants_unfold. cbv zeta.
  destruct (db_up w); [destruct (text_ok (body_name req)) |]; cbn; repeat split; auto.
Qed.

Lemma post_fields (w : World) (req : PostBody) :
  let w' := (handle (post_restaurants req) w).1 in
  now w' = now w /\ redis w' = redis w /\ redis_up w' = redis_up w /\
  db_up w' = db_up w /\ uuid_of w' = uuid_of w /\
  loader_calls (trace w') = loader_calls (trace w).
Proof.
  cbv zeta. rewrite post_restaurants_unfold. cbv zeta.
  destruct (db_up w) eqn:Hdb; [destruct (text_ok (body_name req)) |];
    cbn [fst log set_restaurants bump_uuid now redis redis_up db_up uuid_of trace];
    rewrite ?loader_calls_snoc; cbn [is_load]; repeat split; try assumption; lia.
Qed.

Lemma post_table (w : World) (req : PostBody) :
  db_up w = true ->
  let w' := (handle (post_restaurants req) w).1 in
  restaurants w'
  = Some (default [] (restaurants w)
          ++ if text_ok (body_name req) then [new_row (uuid_of w (uuid_next w)) req] else [])%list
  /\ uuid_next w' = S (uuid_next w).
Proof.
  intros Hdb. cbv zeta. rewrite post_restaurants_unfold, Hdb. cbv zeta.
  destruct (text_ok (body_name req)); cbn; rewrite ?app_nil_r; split; reflexivity.
Qed.

(** X2. Calls of POST /restaurants in a row, Postgres answering: every
    call draws an id, and the table ends with one row for each call whose
    name Postgres takes, in the order of the calls, each with the id drawn
    by its call and its body's name; Redis is as before. *)
Theorem posts_append_in_order (reqs : list PostBody) (w : World) :
  db_up w = true ->
  default [] (restaurants (post_all reqs w))
  = (default [] (restaurants w) ++ new_rows (uuid_of w) (uuid_next w) reqs)%list /\
  uuid_next (post_all reqs w) = (uuid_next w + length reqs)%nat /\
  redis (post_all reqs w) = redis w.
Proof.
  revert w. induction reqs as [|req reqs IH]; intros w Hdb.
  - cbn. rewrite app_nil_r. repeat split. lia.
  - change (post_all (req :: reqs) w)
      with (post_all reqs (handle (post_restaurants req) w).1).
    destruct (post_fields w req) as (_ & Hredis & _ & Hdb' & Hgen & _).
    destruct (post_table w req Hdb) as [Htable Hnext].
    destruct (IH (handle (post_restaurants req) w).1) as (IH1 & IH2 & IH3);
      [congruence |].
    rewrite IH1, IH2, IH3, Htable, Hnext, Hgen, Hredis. cbn [default from_option id new_rows length].
    rewrite <- app_assoc. repeat split. lia.
Qed.

Lemma cold_after_post (w : World) (req : PostBody) :
  truthy (redis_get w "restaurants") = false ->
  truthy (redis_get (handle (post_restaurants req) w).1 "restaurants") = false.
Proof.
  intros Hcold. destruct (post_fields w req) as (Hnow & Hredis & _).
  unfold redis_get in *. rewrite Hredis, Hnow. exact Hcold.
Qed.

(** X3. On a cold cache a GET right after a POST lists the rows already
    stored and, after them, the new restaurant when the POST added it (its
    name a TEXT value or missing); and while the table does not exist
    (before the first POST, which creates it) a GET fails with the
    database's error. *)
Theorem post_then_get_lists_new_row (w : World) (req : PostBody) :
  redis_up w = true -> db_up w = true ->
  truthy (redis_get w "restaurants") = false ->
  (handle get_restaurants (handle (post_restaurants req) w).1).2
  = Returned (res_json (rows_value
      (default [] (restaurants w)
       ++ if text_ok (body_name req) then [new_row (uuid_of w (uuid_next w)) req] else []))) /\
  (restaurants w = None -> (handle get_restaurants w).2 = Threw DbError).
Proof.
  intros Hup Hdb Hcold. split.
  - destruct (post_fields w req) as (_ & _ & Hup' & Hdb' & _).
    destruct (post_table w req Hdb) as [Htable _].
    rewrite (get_miss _ _ (eq_trans Hup' Hup) (cold_after_post w req Hcold)
               (eq_trans Hdb' Hdb) Htable).
    reflexivity.
  - intros Hnone. rewrite get_miss_fails by auto. reflexivity.
Qed.

(** X4. The cache is not invalidated by writes.  After a GET has cached
    the list at time t0, a restaurant added by POST is missing from every
    GET before t0 + 60, which still answers the old list, and is listed by
    the GETs from t0 + 60 on (when the POST added it: its name a TEXT
    value or missing). *)
Theorem new_restaurant_hidden_while_cached (w0 : World) (rows0 : list Row)
    (req : PostBody) (t : Z) :
  redis_up w0 = true -> db_up w0 = true -> restaurants w0 = Some rows0 ->
  truthy (redis_get w0 "restaurants") = false ->
  let w1 := (handle get_restaurants w0).1 in
  let w2 := (handle (post_restaurants req) w1).1 in
  (handle get_restaurants (at_time t w2)).2
  = Returned (res_json (rows_value
      (if t <? now w0 + 60 then rows0
       else rows0 ++ if text_ok (body_name req)
                     then [new_row (uuid_of w0 (uuid_next w0)) req] else []))).
Proof.
  intros Hup Hdb Hrows Hcold w1 w2.
  assert (w1 = stored w0 rows0) as Hw1
    by (subst w1; rewrite (get_miss w0 rows0) by assumption; reflexivity).
  destruct (post_fields w1 req) as (Hnow2 & Hredis2 & Hup2 & Hdb2 & _).
  destruct (post_table w1 req) as [Htable2 _]; [rewrite Hw1; exact Hdb |].
  fold w2 in Hnow2, Hredis2, Hup2, Hdb2, Htable2.
  assert (redis (at_time t w2) !! "restaurants"
          = Some {| ce_value := JSON.stringify (rows_value rows0);
                    ce_inserted := now w0; ce_ttl := 60 |}) as Hentry.
  { cbn [at_time redis]. rewrite Hredis2, Hw1. apply lookup_insert_eq. }
  assert (redis_up (at_time t w2) = true) as Hup' by (cbn; rewrite Hup2, Hw1; exact Hup).
  destruct (t <? now w0 + 60) eqn:Hlt.
  - rewrite (get_hit (at_time t w2) rows0 Hup'); [reflexivity |].
    unfold redis_get. rewrite Hentry. unfold live. cbn [now at_time ce_inserted ce_ttl ce_value].
    rewrite Hlt. reflexivity.
  - rewrite (get_miss (at_time t w2)
               (rows0 ++ if text_ok (body_name req)
                         then [new_row (uuid_of w0 (uuid_next w0)) req] else []) Hup').
    + reflexivity.
    + unfold redis_get. rewrite Hentry. unfold live.
      cbn [now at_time ce_inserted ce_ttl ce_value]. rewrite Hlt. reflexivity.
    + cbn. rewrite Hdb2, Hw1. exact Hdb.
    + cbn [at_time restaurants]. rewrite Htable2, Hw1. cbn. rewrite Hrows. reflexivity.
Qed.

(** X5. When Redis answers the commands with an error, GET /restaurants
    throws at [client.get] and never runs the query, whatever the state of
    the database; and when Redis refuses [client.setEx], after the query
    has returned, the rows are not sent either.  (This is the rejected
    command; a lost connection ends the process.) *)
Theorem get_fails_without_redis (w : World) (rows : list Row) :
  redis_up w = false ->
  handle get_restaurants w = (log (EvClientGet "restaurants") w, Threw RedisError) /\
  loader_calls (trace (handle get_restaurants w).1) = loader_calls (trace w) /\
  (step_thread perform w (store_and_respond rows)).2 = Throw RedisError.
Proof.
  intros Hdown. rewrite get_restaurants_unfold, step_store_cases. cbv zeta.
  rewrite Hdown. cbn [fst snd log trace]. rewrite loader_calls_snoc. cbn [is_load].
  repeat split. lia.
Qed.

(** X6. In the states the service can reach, [JSON.parse] of the cached
    text never fails: a GET ends with a JSON list of rows, or with the
    error of Redis or of Postgres, and with nothing else. *)
Theorem get_outcomes (w : World) :
  reachable w ->
  (exists rows, (handle get_restaurants w).2 = Returned (res_json (rows_value rows))) \/
  (handle get_restaurants w).2 = Threw RedisError \/
  (handle get_restaurants w).2 = Threw DbError.
Proof.
  intros Hreach. destruct (redis_up w) eqn:Hup.
  - destruct (truthy (redis_get w "restaurants")) eqn:Hcache.
    + destruct (redis_get w "restaurants") as [text|] eqn:Hget; [|discriminate].
      destruct (redis_get_Some _ _ _ Hget) as (e & He & _ & Hval).
      destruct (reachable_wf _ Hreach _ He) as (_ & rows & Hrows).
      left. exists rows. rewrite (get_hit w rows Hup); [reflexivity | congruence].
    + destruct (get_cold w Hup Hcache) as [_ Hout]. rewrite Hout.
      destruct (db_up w); [destruct (restaurants w) as [rows|] |]; eauto.
  - right. left. rewrite get_restaurants_unfold. cbv zeta. rewrite Hup. reflexivity.
Qed.

Lemma hit_fields (w : World) (rows : list Row) :
  redis_up w = true ->
  redis_get w "restaurants" = Some (JSON.stringify (rows_value rows)) ->
  let w' := (handle get_restaurants w).1 in
  redis w' = redis w /\ redis_up w' = redis_up w /\
  loader_calls (trace w') = loader_calls (trace w).
Proof.
  intros Hup Hget. cbv zeta. rewrite (get_hit w rows Hup Hget).
  cbn [fst log redis redis_up trace]. rewrite loader_calls_snoc. cbn [is_load].
  repeat split. lia.
Qed.

(** X7. Reads do not renew the entry.  While the clock stays below the
    entry's insertion time plus its TTL, any number of GETs are all served
    the stored rows, run no query, and leave Redis as it is, the expiry
    included. *)
Theorem hits_leave_entry (ts : list Z) (w : World) (e : CacheEntry) (rows : list Row) :
  redis_up w = true ->
  redis w !! "restaurants" = Some e ->
  ce_value e = JSON.stringify (rows_value rows) ->
  Forall (fun t => t < ce_inserted e + ce_ttl e) ts ->
  (read_at ts w).2 = replicate (length ts) (Returned (res_json (rows_value rows))) /\
  redis (read_at ts w).1 = redis w /\
  loader_calls (trace (read_at ts w).1) = loader_calls (trace w).
Proof.
  intros Hup He Hval Hts. revert w Hup He.
  induction Hts as [|t ts Ht _ IH]; intros w Hup He.
  - repeat split.
  - cbn [read_at length replicate fst snd].
    assert (redis_get (at_time t w) "restaurants" = Some (JSON.stringify (rows_value rows)))
      as Hget.
    { unfold redis_get. cbn [at_time redis now]. rewrite He. unfold live.
      destruct (t <? ce_inserted e + ce_ttl e) eqn:Hlt; [congruence | lia]. }
    destruct (hit_fields (at_time t w) rows Hup Hget) as (Hredis & Hup' & Hcalls).
    cbn [at_time redis redis_up trace] in Hredis, Hup', Hcalls.
    destruct (IH (handle get_restaurants (at_time t w)).1) as (IH1 & IH2 & IH3);
      [congruence | congruence |].
    rewrite IH1, IH2, IH3, Hredis, Hcalls.
    rewrite (get_hit (at_time t w) rows Hup Hget). repeat split.
Qed.
End RestaurantRunFacts.

(** ** order-service and notification-service *)

Section OrderRunFacts.
Import Order OrderRuns.

(** X8. POST /orders has no rollback: when the INSERT has gone through and
    [orderQueue.add] rejects, the handler throws without a response, and
    the order's row stays in the table with no job for it. *)
Theorem order_row_without_job (w : World) :
  db_up w = true -> queue_up w = false ->
  (handle post_orders w).2 = Threw QueueError /\
  orders (handle post_orders w).1
  = Some (table w ++ [{| row_id := uuid_of w (uuid_next w); row_status := "PLACED" |}])%list /\
  queue (handle post_orders w).1 = queue w.
Proof.
  intros Hdb Hqueue. rewrite post_orders_unfold, Hdb, Hqueue. cbv zeta. repeat split.
Qed.

Lemma step_start (w : World) :
  step_thread perform w post_orders
  = if db_up w then (set_orders (Some (table w)) w, draw_and_insert)
    else (w, Throw DbError).
Proof. cbn. unfold db_query. destruct (db_up w); reflexivity. Qed.

Lemma step_draw (w : World) :
  step_thread perform w draw_and_insert
  = (bump_uuid w, insert_and_add (uuid_of w (uuid_next w))).
Proof. reflexivity. Qed.

Lemma step_insert (w : World) (id : string) :
  step_thread perform w (insert_and_add id)
  = if db_up w then
      match orders w with
      | Some rows =>
          (set_orders (Some (rows ++ [{| row_id := id; row_status := "PLACED" |}])%list) w,
           add_and_respond id)
      | None => (w, Throw DbError)
      end
    else (w, Throw DbError).
Proof. cbn. unfold db_query. destruct (db_up w); [destruct (orders w) |]; reflexivity. Qed.

Lemma step_add (w : World) (id : string) :
  step_thread perform w (add_and_respond id)
  = if queue_up w then
      (set_queue (queue w ++ [{| job_name := "order.created"; job_orderId := id |}]) w,
       Ret (res_json (JObject [("orderId", JString id); ("status", JString "PLACED")])))
    else (w, Throw QueueError).
Proof. cbn. destruct (queue_up w); reflexivity. Qed.

(** A request stands where it stood when the generator has only moved on
    and the table has only grown. *)
Lemma thread_at_later (w w' : World) (t : Prog Op Response) (m : option nat) :
  uuid_of w' = uuid_of w -> (uuid_next w <= uuid_next w')%nat ->
  (forall id, id ∈ row_ids w -> id ∈ row_ids w') ->
  thread_at w t m -> thread_at w' t m.
Proof.
  intros Hgen Hnext Hrows [ | | k Hk | id Hid | r | e ]; try constructor.
  - rewrite <- Hgen. constructor. lia.
  - apply Hrows, Hid.
Qed.

Lemma threads_later (w w' : World) (pool : list (Prog Op Response)) (marks : list (option nat)) :
  uuid_of w' = uuid_of w -> (uuid_next w <= uuid_next w')%nat ->
  (forall id, id ∈ row_ids w -> id ∈ row_ids w') ->
  Forall2 (thread_at w) pool marks -> Forall2 (thread_at w') pool marks.
Proof.
  intros Hgen Hnext Hrows Hall. eapply Forall2_impl; [exact Hall |].
  intros t m. apply thread_at_later; assumption.
Qed.

(** The draws not yet inserted are draws made. *)
Lemma marks_drawn (w : World) (pool : list (Prog Op Response)) (marks : list (option nat)) :
  Forall2 (thread_at w) pool marks -> Forall (fun k => (k < uuid_next w)%nat) (omap id marks).
Proof.
  induction 1 as [|t m pool marks Ht _ IH]; [constructor |].
  destruct Ht; cbn; try exact IH. constructor; assumption.
Qed.

Lemma omap_insert_None (marks : list (option nat)) (i : nat) (m : option nat) :
  marks !! i = Some m ->
  omap id marks ≡ₚ (option_list m ++ omap id (<[i := None]> marks))%list.
Proof.
  revert i. induction marks as [|m0 marks IH]; intros [|i] Hi; try discriminate.
  - injection Hi as ->. destruct m; reflexivity.
  - cbn in Hi. specialize (IH i Hi). destruct m0 as [k0|]; cbn.
    + rewrite IH. apply Permutation_middle.
    + exact IH.
Qed.

Lemma insert_insert_None (marks : list (option nat)) (i : nat) (m : option nat) :
  <[i := None]> (<[i := m]> marks) = <[i := None]> marks.
Proof. apply list_insert_insert_eq. Qed.

Lemma map_snoc {A B : Type} (f : A -> B) (l : list A) (x : A) :
  map f (l ++ [x]) = (map f l ++ [f x])%list.
Proof. apply map_app. Qed.

(** One call of one request keeps the invariant. *)
Lemma step_invariant (w : World) (pool : list (Prog Op Response))
    (marks : list (option nat)) (ks : list nat) (i : nat) :
  invariant w pool marks ks ->
  exists marks' ks',
    invariant (step_pool perform (w, pool) i).1 (step_pool perform (w, pool) i).2 marks' ks'.
Proof.
  intros [Hthreads Hrows Hnodup Hdrawn Hjobs Hnames Hstatus].
  unfold step_pool. cbn [fst snd].
  destruct (pool !! i) as [t|] eqn:Hi;
    [|exists marks, ks; cbn [fst snd]; constructor; assumption].
  destruct (Forall2_lookup_l _ _ _ _ _ Hthreads Hi) as (m & Hm & Ht).
  pose proof (omap_insert_None marks i m Hm) as Hperm.
  pose proof (marks_drawn _ _ _ Hthreads) as Hmarks.
  destruct Ht as [ | | k Hk | id Hid | r | e ].
  - rewrite step_start. destruct (db_up w); cbn [fst snd].
    + exists marks, ks.
      assert (row_ids (set_orders (Some (table w)) w) = row_ids w) as Hsame by reflexivity.
      constructor; cbn [queue set_orders uuid_of uuid_next]; rewrite ?Hsame; try assumption.
      rewrite <- (list_insert_id marks i None Hm).
      apply Forall2_insert; [|constructor].
      apply (threads_later w); [reflexivity | reflexivity | | exact Hthreads]. auto.
    + exists marks, ks. constructor; try assumption.
      rewrite <- (list_insert_id marks i None Hm).
      apply Forall2_insert; [exact Hthreads | constructor].
  - rewrite step_draw. cbn [fst snd].
    exists (<[i := Some (uuid_next w)]> marks), ks.
    assert (row_ids (bump_uuid w) = row_ids w) as Hsame by reflexivity.
    constructor; cbn [queue bump_uuid uuid_of uuid_next]; rewrite ?Hsame; try assumption.
    + apply Forall2_insert.
      * apply (threads_later w); [reflexivity | | | exact Hthreads];
          [cbn; lia | auto].
      * apply (at_insert (bump_uuid w) (uuid_next w)). cbn. lia.
    + pose proof (omap_insert_None (<[i := Some (uuid_next w)]> marks) i (Some (uuid_next w)))
        as Hperm'.
      rewrite list_lookup_insert_eq in Hperm' by (eapply lookup_lt_Some, Hm).
      specialize (Hperm' eq_refl). rewrite insert_insert_None in Hperm'.
      rewrite Hperm'. rewrite Hperm in Hnodup, Hmarks.
      change (option_list None ++ ?l)%list with l in Hnodup, Hmarks.
      change (option_list (Some ?x) ++ ?l)%list with (x :: l).
      rewrite <- Permutation_middle. apply NoDup_cons. split; [|exact Hnodup].
      intros Hin. apply elem_of_app in Hin as [Hin | Hin].
      * rewrite Forall_forall in Hdrawn. specialize (Hdrawn _ Hin). lia.
      * rewrite Forall_forall in Hmarks. specialize (Hmarks _ Hin). lia.
    + eapply Forall_impl; [exact Hdrawn |]. cbn. intros; lia.
  - rewrite step_insert.
    assert (NoDup (ks ++ omap id (<[i := None]> marks)) /\
            NoDup ((ks ++ [k]) ++ omap id (<[i := None]> marks))) as [Hless Hmoved].
    { rewrite Hperm in Hnodup.
      change (option_list (Some ?x) ++ ?l)%list with (x :: l) in Hnodup.
      rewrite <- Permutation_middle in Hnodup. apply NoDup_cons in Hnodup as [Hk' Hrest].
      split; [exact Hrest |]. rewrite <- app_assoc. cbn [app].
      rewrite <- Permutation_middle. apply NoDup_cons. split; assumption. }
    destruct (db_up w); [destruct (orders w) as [rows|] eqn:Horders |]; cbn [fst snd].
    + exists (<[i := None]> marks), (ks ++ [k])%list.
      assert (row_ids (set_orders (Some (rows ++ [{| row_id := uuid_of w k;
                                                      row_status := "PLACED" |}])%list) w)
              = (row_ids w ++ [uuid_of w k])%list) as Hgrown.
      { unfold row_ids, table. cbn [orders set_orders]. rewrite Horders.
        cbn [default from_option id]. rewrite map_snoc. reflexivity. }
      constructor; cbn [queue set_orders uuid_of uuid_next]; rewrite ?Hgrown.
      * apply Forall2_insert.
        -- apply (threads_later w); [reflexivity | reflexivity | | exact Hthreads].
           intros id Hid. rewrite Hgrown. apply elem_of_app. left. exact Hid.
        -- apply at_add. rewrite Hgrown. apply elem_of_app. right. left.
      * rewrite Hrows, map_snoc. reflexivity.
      * exact Hmoved.
      * apply Forall_app. split; [exact Hdrawn | repeat constructor; exact Hk].
      * eapply Forall_impl; [exact Hjobs |]. cbn. intros j Hj. apply elem_of_app. left. exact Hj.
      * exact Hnames.
      * unfold table in *. cbn [orders set_orders]. rewrite Horders in Hstatus.
        cbn [default from_option id] in *.
        apply Forall_app. split; [exact Hstatus | repeat constructor].
    + exists (<[i := None]> marks), ks. constructor; try assumption.
      apply Forall2_insert; [exact Hthreads | constructor].
    + exists (<[i := None]> marks), ks. constructor; try assumption.
      apply Forall2_insert; [exact Hthreads | constructor].
  - rewrite step_add. destruct (queue_up w); cbn [fst snd].
    + exists marks, ks.
      assert (row_ids (set_queue (queue w ++ [{| job_name := "order.created";
                                                   job_orderId := id |}]) w)
              = row_ids w) as Hsame by reflexivity.
      constructor; cbn [queue set_queue uuid_of uuid_next]; rewrite ?Hsame; try assumption.
      * rewrite <- (list_insert_id marks i None Hm).
        apply Forall2_insert; [|constructor].
        apply (threads_later w); [reflexivity | reflexivity | | exact Hthreads]. auto.
      * apply Forall_app. split; [exact Hjobs | repeat constructor; exact Hid].
      * apply Forall_app. split; [exact Hnames | repeat constructor].
    + exists marks, ks. constructor; try assumption.
      rewrite <- (list_insert_id marks i None Hm).
      apply Forall2_insert; [exact Hthreads | constructor].
  - cbn [step_thread fst snd]. exists marks, ks. constructor; try assumption.
    rewrite (list_insert_id pool i (Ret r) Hi). exact Hthreads.
  - cbn [step_thread fst snd]. exists marks, ks. constructor; try assumption.
    rewrite (list_insert_id pool i (Throw e) Hi). exact Hthreads.
Qed.

(** The invariant holds of the service however its requests interleave. *)
Lemma running_invariant (st : World * list (Prog Op Response)) :
  running st -> exists marks ks, invariant st.1 st.2 marks ks.
Proof.
  induction 1 as [w Htable Hqueue | w w' pool _ IH Henv | w pool _ IH | [w pool] i _ IH];
    cbn [fst snd] in *.
  - exists [], []. constructor; unfold row_ids; rewrite ?Htable, ?Hqueue; constructor.
  - destruct IH as (marks & ks & [Hthreads Hrows Hnodup Hdrawn Hjobs Hnames Hstatus]).
    destruct Henv as [Horders Hqueue Hgen Hnext].
    assert (row_ids w' = row_ids w) as Hsame by (unfold row_ids, table; rewrite Horders; reflexivity).
    exists marks, ks. constructor; rewrite ?Hsame, ?Hqueue, ?Hgen, ?Hnext; try assumption.
    + apply (threads_later w); [exact Hgen | lia | | exact Hthreads]. rewrite Hsame. auto.
    + unfold table in *. rewrite Horders. exact Hstatus.
  - destruct IH as (marks & ks & [Hthreads Hrows Hnodup Hdrawn Hjobs Hnames Hstatus]).
    exists (marks ++ [None])%list, ks. constructor; try assumption.
    + apply Forall2_app; [exact Hthreads | repeat constructor].
    + rewrite omap_app. cbn. rewrite app_nil_r. exact Hnodup.
  - destruct IH as (marks & ks & Hinv). apply (step_invariant w pool marks ks i Hinv).
Qed.

Lemma reachable_init (w : World) : table w = [] -> queue w = [] -> reachable w.
Proof. intros Htable Hqueue. exists []. apply run_init; assumption. Qed.

Lemma running_schedule (sched : list nat) (st : World * list (Prog Op Response)) :
  running st -> running (run_schedule perform sched st).
Proof.
  revert st. induction sched as [|i sched IH]; intros st Hst; [exact Hst |].
  unfold run_schedule in *. cbn [foldl]. apply IH, run_step, Hst.
Qed.

(** A call of the handler with nothing in between is one way to reach a
    state. *)
Lemma reachable_post (w : World) : reachable w -> reachable (handle post_orders w).1.
Proof.
  intros [pool Hrun].
  destruct (run_as_steps perform post_orders w (pool ++ [post_orders])%list (length pool))
    as (n & t & Hsteps).
  { rewrite lookup_app_r by lia. rewrite Nat.sub_diag. reflexivity. }
  exists (<[length pool := t]> (pool ++ [post_orders])%list).
  unfold handle. rewrite <- Hsteps. apply running_schedule, run_arrive, Hrun.
Qed.

Lemma order_invariant (w : World) :
  reachable w ->
  exists ks,
    row_ids w = map (uuid_of w) ks /\ NoDup ks /\
    Forall (fun j => job_orderId j ∈ row_ids w) (queue w) /\
    Forall (fun j => job_name j = "order.created") (queue w) /\
    Forall (fun r => row_status r = "PLACED") (table w).
Proof.
  intros [pool Hrun].
  destruct (running_invariant _ Hrun) as (marks & ks & [_ Hrows Hnodup _ Hjobs Hnames Hstatus]).
  cbn [fst snd] in *. exists ks. repeat split; try assumption.
  apply NoDup_app in Hnodup. apply Hnodup.
Qed.

(** X9. However the requests interleaved, and whatever calls succeeded or
    failed since the start: every job in the queue is "order.created" for
    an order whose row is in the table, and every row has the status
    "PLACED".  (The jobs need not come in the order of their rows: a
    request can be overtaken between its INSERT and its [add].) *)
Theorem jobs_refer_to_rows (w : World) :
  reachable w ->
  Forall (fun j => job_orderId j ∈ row_ids w) (queue w) /\
  Forall (fun j => job_name j = "order.created") (queue w) /\
  Forall (fun r => row_status r = "PLACED") (table w).
Proof.
  intros Hreach. destruct (order_invariant w Hreach) as (ks & _ & _ & H). exact H.
Qed.

(** X10. When [uuid()] never returns the same value twice, no two rows of
    the table have the same id. *)
Theorem order_ids_distinct (w : World) :
  reachable w ->
  (forall a b, uuid_of w a = uuid_of w b -> a = b) ->
  NoDup (row_ids w).
Proof.
  intros Hreach Hinj. destruct (order_invariant w Hreach) as (ks & -> & Hnodup & _).
  induction Hnodup as [|k ks Hk _ IH]; cbn [map]; constructor; [|exact IH].
  intros Hin. apply Hk. apply list_elem_of_In, in_map_iff in Hin as (k' & Heq & Hin').
  apply Hinj in Heq. subst k'. apply list_elem_of_In, Hin'.
Qed.
End OrderRunFacts.

Section NotificationFacts.
Import Notification.

(** X11. Every job the order service has queued, however its requests
    interleaved, is one the worker's processor logs with its tag, the name
    "order.created" and the orderId of an order whose row is in the
    table. *)
Theorem orders_are_notified (ow : Order.World) :
  OrderRuns.reachable ow ->
  Forall (fun job =>
            processor job
            = {| line_tag := "[NOTIFICATION-SERVICE] Processing job";
                 line_name := "order.created";
                 line_orderId := Order.job_orderId job |} /\
            Order.job_orderId job ∈ OrderRuns.row_ids ow)
         (Order.queue ow).
Proof.
  intros Hreach. destruct (order_invariant ow Hreach) as (ks & _ & _ & Hjobs & Hnames & _).
  apply Forall_forall. intros job Hin.
  rewrite Forall_forall in Hjobs, Hnames. split; [|apply Hjobs, Hin].
  unfold processor. rewrite (Hnames job Hin). reflexivity.
Qed.
End NotificationFacts.

(** ** auth-service: start-up *)

Section StartupFacts.
Import Startup.
Variable db_ready : nat -> bool.

Lemma queries_cons (ev : BootEvent) (evs : list BootEvent) :
  queries (ev :: evs) = ((if is_query ev then 1 else 0) + queries evs)%nat.
Proof. unfold queries. rewrite filter_cons. destruct (is_query ev); reflexivity. Qed.

Lemma queries_app (a b : list BootEvent) : queries (a ++ b) = (queries a + queries b)%nat.
Proof. unfold queries. rewrite filter_app, length_app. reflexivity. Qed.

Lemma slept_app (a b : list BootEvent) : slept (a ++ b) = slept a + slept b.
Proof.
  induction a as [|ev a IH]; [reflexivity |].
  change (slept ((ev :: a) ++ b))
    with (match ev with Sleep ms => ms + slept (a ++ b) | _ => slept (a ++ b) end).
  change (slept (ev :: a)) with (match ev with Sleep ms => ms + slept a | _ => slept a end).
  rewrite IH. destruct ev; lia.
Qed.

Lemma failures_counts (retries j : nat) (delay : Z) :
  (j <= retries)%nat ->
  queries (failures retries j delay) = j /\
  slept (failures retries j delay) = Z.of_nat j * delay /\
  Forall (fun ev => forall port code, ev <> Listen port /\ ev <> Exit code)
         (failures retries j delay).
Proof.
  revert retries. induction j as [|j IH]; intros retries Hle.
  - destruct retries; cbn; repeat split; constructor.
  - destruct retries as [|remaining]; [lia |].
    destruct (IH remaining) as (Hq & Hs & Hall); [lia |].
    cbn [failures]. rewrite !queries_cons. cbn [is_query].
    change (slept (QueryFailed remaining :: Sleep delay :: failures remaining j delay))
      with (delay + slept (failures remaining j delay)).
    rewrite Hq, Hs. repeat split; [lia | ].
    repeat constructor; try discriminate. exact Hall.
Qed.

Lemma initDB_from_retry (delay : Z) (k remaining : nat) :
  db_ready k = false ->
  initDB_from db_ready k (S (S remaining)) delay
  = (QueryFailed (S remaining) :: Sleep delay
       :: (initDB_from db_ready (S k) (S remaining) delay).1,
     (initDB_from db_ready (S k) (S remaining) delay).2).
Proof.
  intros Hk.
  change (initDB_from db_ready k (S (S remaining)) delay)
    with (if db_ready k then ([QueryOk], true)
          else (QueryFailed (S remaining) :: Sleep delay
                  :: (initDB_from db_ready (S k) (S remaining) delay).1,
                (initDB_from db_ready (S k) (S remaining) delay).2)).
  rewrite Hk. reflexivity.
Qed.

Lemma initDB_from_ok (delay : Z) (j : nat) :
  forall k0 retries,
    (j < retries)%nat ->
    (forall i, (i < j)%nat -> db_ready (k0 + i) = false) ->
    db_ready (k0 + j) = true ->
    initDB_from db_ready k0 retries delay
    = ((failures retries j delay ++ [QueryOk])%list, true).
Proof.
  induction j as [|j IH]; intros k0 retries Hlt Hfail Hok.
  - destruct retries as [|remaining]; [lia |].
    rewrite Nat.add_0_r in Hok. cbn. rewrite Hok. reflexivity.
  - destruct retries as [|[|remaining]]; [lia | lia |].
    pose proof (Hfail 0%nat ltac:(lia)) as H0. rewrite Nat.add_0_r in H0.
    rewrite (initDB_from_retry delay k0 remaining H0).
    rewrite (IH (S k0) (S remaining)); [reflexivity | lia | |].
    + intros i Hi. replace (S k0 + i)%nat with (k0 + S i)%nat by lia. apply Hfail. lia.
    + replace (S k0 + j)%nat with (k0 + S j)%nat by lia. exact Hok.
Qed.

Lemma initDB_from_fail (delay : Z) (retries : nat) :
  forall k0,
    (0 < retries)%nat ->
    (forall i, (i < retries)%nat -> db_ready (k0 + i) = false) ->
    initDB_from db_ready k0 retries delay
    = ((failures retries (retries - 1) delay ++ [QueryFailed 0; Exit 1])%list, false).
Proof.
  induction retries as [|remaining IH]; intros k0 Hpos Hfail; [lia |].
  pose proof (Hfail 0%nat ltac:(lia)) as H0. rewrite Nat.add_0_r in H0.
  destruct remaining as [|remaining'].
  - cbn. rewrite H0. reflexivity.
  - rewrite (initDB_from_retry delay k0 remaining' H0).
    rewrite (IH (S k0)); [| lia |].
    + cbn [Nat.sub fst snd]. rewrite Nat.sub_0_r. reflexivity.
    + intros i Hi. replace (S k0 + i)%nat with (k0 + S i)%nat by lia. apply Hfail. lia.
Qed.

(** X12. When the [j]-th query is the first to succeed and [j] is below
    the number of retries, [initDB] resolves after [j] failed queries, each
    logged with the retries left and followed by one sleep of [delay], and
    the successful one: [j + 1] queries, [j * delay] of waiting, no exit. *)
Theorem initDB_resolves_at_first_success (retries j : nat) (delay : Z) :
  (j < retries)%nat ->
  (forall i, (i < j)%nat -> db_ready i = false) ->
  db_ready j = true ->
  initDB db_ready retries delay = ((failures retries j delay ++ [QueryOk])%list, true) /\
  queries (initDB db_ready retries delay).1 = S j /\
  slept (initDB db_ready retries delay).1 = Z.of_nat j * delay.
Proof.
  intros Hlt Hfail Hok. unfold initDB.
  rewrite (initDB_from_ok delay j 0 retries Hlt Hfail Hok). cbn [fst].
  destruct (failures_counts retries j delay) as (Hq & Hs & _); [lia |].
  rewrite queries_app, slept_app, Hq, Hs.
  change (queries [QueryOk]) with 1%nat. change (slept [QueryOk]) with 0.
  repeat split; lia.
Qed.

(** X13. When the first [retries] queries all fail ([retries] at least 1),
    [initDB] never resolves: the process exits with code 1 right after the
    last failure, having made [retries] queries and slept [retries - 1]
    times, and not after it. *)
Theorem initDB_exits_after_retries (retries : nat) (delay : Z) :
  (0 < retries)%nat ->
  (forall i, (i < retries)%nat -> db_ready i = false) ->
  initDB db_ready retries delay
  = ((failures retries (retries - 1) delay ++ [QueryFailed 0; Exit 1])%list, false) /\
  queries (initDB db_ready retries delay).1 = retries /\
  slept (initDB db_ready retries delay).1 = Z.of_nat (retries - 1) * delay.
Proof.
  intros Hpos Hfail. unfold initDB.
  rewrite (initDB_from_fail delay retries 0 Hpos Hfail). cbn [fst].
  destruct (failures_counts retries (retries - 1) delay) as (Hq & Hs & _); [lia |].
  rewrite queries_app, slept_app, Hq, Hs.
  change (queries [QueryFailed 0; Exit 1]) with 1%nat.
  change (slept [QueryFailed 0; Exit 1]) with 0.
  repeat split; lia.
Qed.

Lemma first_success (n : nat) :
  (exists j, (j < n)%nat /\ (forall i, (i < j)%nat -> db_ready i = false) /\ db_ready j = true)
  \/ (forall i, (i < n)%nat -> db_ready i = false).
Proof.
  induction n as [|n [(j & Hj & Hfail & Hok) | Hnone]].
  - right. intros i Hi. lia.
  - left. exists j. repeat split; [lia | exact Hfail | exact Hok].
  - destruct (db_ready n) eqn:Hn.
    + left. exists n. repeat split; [lia | exact Hnone | exact Hn].
    + right. intros i Hi. destruct (decide (i = n)) as [-> | Hne]; [exact Hn |].
      apply Hnone. lia.
Qed.

(** X14. The service as started, [initDB()] with 10 retries 3 seconds
    apart: it begins to listen on 4001 exactly when one of the first 10
    queries succeeds, and exits with code 1 exactly when all 10 fail;
    whichever happens is the last thing of the start-up, after at most 10
    queries and 27 seconds of waiting. *)
Theorem boot_listens_iff_db_ready :
  (Listen 4001 ∈ boot db_ready <-> exists k, (k < 10)%nat /\ db_ready k = true) /\
  (Exit 1 ∈ boot db_ready <-> forall k, (k < 10)%nat -> db_ready k = false) /\
  (last (boot db_ready) = Some (Listen 4001) \/ last (boot db_ready) = Some (Exit 1)) /\
  (queries (boot db_ready) <= 10)%nat /\
  0 <= slept (boot db_ready) <= 27000.
Proof.
  unfold boot, initDB.
  destruct (first_success 10) as [(j & Hj & Hfail & Hok) | Hnone].
  - rewrite (initDB_from_ok 3000 j 0 10 Hj Hfail Hok). cbn [fst snd].
    destruct (failures_counts 10 j 3000) as (Hq & Hs & Hall); [lia |].
    rewrite <- app_assoc. cbn [app]. rewrite queries_app, slept_app, Hq, Hs.
    change (queries [QueryOk; Listen 4001]) with 1%nat.
    change (slept [QueryOk; Listen 4001]) with 0.
    split; [|split; [|split; [|split]]].
    + split; [intros _; exists j; split; assumption |].
      intros _. apply elem_of_app. right. right. left.
    + split.
      * intros Hin. apply elem_of_app in Hin. destruct Hin as [Hin | Hin].
        -- rewrite Forall_forall in Hall. destruct (Hall _ Hin 0 1) as (_ & Hne). congruence.
        -- apply list_elem_of_In in Hin. cbn in Hin. destruct Hin as [H | [H | []]]; discriminate.
      * intros Hall10. rewrite (Hall10 j Hj) in Hok. discriminate.
    + left. rewrite last_app. reflexivity.
    + lia.
    + lia.
  - rewrite (initDB_from_fail 3000 10 0 ltac:(lia) Hnone). cbn [fst snd].
    destruct (failures_counts 10 9 3000) as (Hq & Hs & Hall); [lia |].
    change (10 - 1)%nat with 9%nat. rewrite queries_app, slept_app, Hq, Hs.
    change (queries [QueryFailed 0; Exit 1]) with 1%nat.
    change (slept [QueryFailed 0; Exit 1]) with 0.
    split; [|split; [|split; [|split]]].
    + split.
      * intros Hin. apply elem_of_app in Hin. destruct Hin as [Hin | Hin].
        -- rewrite Forall_forall in Hall. destruct (Hall _ Hin 4001 1) as (Hne & _). congruence.
        -- apply list_elem_of_In in Hin. cbn in Hin. destruct Hin as [H | [H | []]]; discriminate.
      * intros (k & Hk & Hready). rewrite (Hnone k Hk) in Hready. discriminate.
    + split; [intros _; exact Hnone |].
      intros _. apply elem_of_app. right. right. left.
    + right. rewrite last_app. reflexivity.
    + lia.
    + lia.
Qed.
End StartupFacts.

(** ** auth-service: registration and login *)

Section AccountFacts.
Import Accounts.
Variable bcrypt_hash : string -> string -> string.
Variable bcrypt_compare : string -> string -> bool.
Variable jwt_sign : Auth.Claims -> string -> string.

Lemma register_unfold (w : World) (req : RegisterBody) :
  handle bcrypt_hash (register req) w =
  match password req with
  | None => (w, Threw BcryptError)
  | Some p =>
      let r := insert_user (auth w) (uuid_of w (uuid_next w)) (email req)
                 (bcrypt_hash p (salt_of w (salt_next w)))
                 (or_default (role req) "USER") in
      (set_auth r.1 (drawn w),
       match r.2 with
       | inr _ => Returned (res_json (JObject [("message", JString "User registered")]))
       | inl e => Threw e
       end)
  end.
Proof.
  unfold handle, register. cbn. destruct (password req) as [p|]; [|reflexivity].
  cbn. destruct (insert_user _ _ _ _ _) as [a [e | []]]; reflexivity.
Qed.

(** X15. POST /auth/register responds "User registered" exactly when the
    body has a string password and an email, Postgres answers, the email,
    the hash and the role are TEXT values (no code unit 0), and neither
    the new id nor the email is in the table; the table then ends with the
    new user: the id [uuid()] returned, the email, the bcrypt hash of the
    password (not the password), and the body's role, or "USER" when the
    role is missing or empty.  In every other case the handler throws and
    the table is as before. *)
Theorem register_adds_user (w : World) (req : RegisterBody) :
  let r := handle bcrypt_hash (register req) w in
  let id := uuid_of w (uuid_next w) in
  let hash_of p := bcrypt_hash p (salt_of w (salt_next w)) in
  let given := match role req with
               | Some "" | None => "USER"
               | Some given => given
               end in
  match r.2 with
  | Returned resp =>
      resp = res_json (JObject [("message", JString "User registered")]) /\
      Auth.db_up (auth w) = true /\
      exists p e,
        password req = Some p /\ email req = Some e /\
        has_nul e = false /\ has_nul (hash_of p) = false /\ has_nul given = false /\
        (id ∉ ids (auth w)) /\ (e ∉ emails (auth w)) /\
        Auth.users (auth r.1)
        = (Auth.users (auth w) ++
           [{| Auth.user_id := id; Auth.user_email := e;
               Auth.user_password := hash_of p; Auth.user_role := given |}])%list
  | Threw e =>
      Auth.users (auth r.1) = Auth.users (auth w) /\
      (password req = None \/ email req = None \/ Auth.db_up (auth w) = false \/
       (exists e, email req = Some e /\ has_nul e = true) \/
       (exists p, password req = Some p /\ has_nul (hash_of p) = true) \/
       has_nul given = true \/
       (id ∈ ids (auth w)) \/
       exists e, email req = Some e /\ e ∈ emails (auth w))
  end.
Proof.
  cbv zeta. rewrite register_unfold.
  assert (match role req with
          | Some "" | None => "USER"
          | Some given => given
          end = or_default (role req) "USER") as ->
    by (destruct (role req) as [[|c given]|]; reflexivity).
  destruct (password req) as [p|]; [|cbn; split; [reflexivity | left; reflexivity]].
  cbv zeta. unfold insert_user.
  destruct (Auth.db_up (auth w)) eqn:Hdb;
    [|cbn; split; [reflexivity | right; right; left; reflexivity]].
  destruct (email req) as [e|]; [|cbn; split; [reflexivity | right; left; reflexivity]].
  destruct (has_nul e) eqn:Hne.
  { cbn. split; [reflexivity |]. do 3 right. left. eauto. }
  destruct (has_nul (bcrypt_hash p (salt_of w (salt_next w)))) eqn:Hnh.
  { cbn. split; [reflexivity |]. do 4 right. left. eauto. }
  destruct (has_nul (or_default (role req) "USER")) eqn:Hnr.
  { cbn. split; [reflexivity |]. do 5 right. left. reflexivity. }
  cbn [orb].
  destruct (bool_decide (uuid_of w (uuid_next w) ∈ ids (auth w))) eqn:Hid.
  { apply bool_decide_eq_true in Hid. cbn. split; [reflexivity |].
    do 6 right. left. exact Hid. }
  destruct (bool_decide (e ∈ emails (auth w))) eqn:He.
  { apply bool_decide_eq_true in He. cbn. split; [reflexivity |].
    do 7 right. exists e. split; [reflexivity | exact He]. }
  apply bool_decide_eq_false in Hid, He.
  cbn. split; [reflexivity |]. split; [reflexivity |].
  exists p, e. repeat split; assumption.
Qed.

(** X16. An email can be registered once: a registration with an email
    that is already in the table throws and leaves the table as it is. *)
Theorem register_rejects_known_email (w : World) (req : RegisterBody) (e : string) :
  email req = Some e ->
  e ∈ emails (auth w) ->
  (exists err, (handle bcrypt_hash (register req) w).2 = Threw err) /\
  Auth.users (auth (handle bcrypt_hash (register req) w).1) = Auth.users (auth w).
Proof.
  intros Hemail Hin. rewrite register_unfold.
  destruct (password req) as [p|]; [|cbn; eauto].
  cbv zeta. unfold insert_user. rewrite Hemail.
  destruct (Auth.db_up (auth w)); [|cbn; eauto].
  destruct (has_nul e || has_nul _ || has_nul _); [cbn; eauto |].
  rewrite (bool_decide_eq_true_2 _ Hin), orb_true_r. cbn. eauto.
Qed.

Lemma register_users (w : World) (req : RegisterBody) :
  let w' := (handle bcrypt_hash (register req) w).1 in
  Auth.users (auth w') = Auth.users (auth w) \/
  exists u,
    Auth.users (auth w') = (Auth.users (auth w) ++ [u])%list /\
    (Auth.user_id u ∉ ids (auth w)) /\ (Auth.user_email u ∉ emails (auth w)).
Proof.
  cbv zeta. rewrite register_unfold.
  destruct (password req) as [p|]; [|left; reflexivity].
  cbv zeta. unfold insert_user.
  destruct (Auth.db_up (auth w)); [|left; reflexivity].
  destruct (email req) as [e|]; [|left; reflexivity].
  destruct (has_nul e || has_nul _ || has_nul _); [left; reflexivity |].
  destruct (bool_decide (uuid_of w (uuid_next w) ∈ ids (auth w))) eqn:Hid;
    [left; reflexivity |].
  destruct (bool_decide (e ∈ emails (auth w))) eqn:He; [left; reflexivity |].
  apply bool_decide_eq_false in Hid, He.
  right. eexists. cbn. repeat split; assumption.
Qed.

Lemma unique_emails (w : World) :
  reachable bcrypt_hash w -> NoDup (emails (auth w)) /\ NoDup (ids (auth w)).
Proof.
  unfold emails, ids.
  induction 1 as [w Hempty | w w' _ IH Hsame | w req _ IH].
  - rewrite Hempty. split; constructor.
  - rewrite Hsame. exact IH.
  - destruct IH as [Hemails Hids].
    destruct (register_users w req) as [-> | (u & -> & Hid & He)]; [split; assumption |].
    rewrite !map_app. cbn [map]. split.
    + apply NoDup_app. split; [exact Hemails |]. split; [|apply NoDup_singleton].
      intros x Hx Hx'. apply list_elem_of_singleton in Hx'. subst x. exact (He Hx).
    + apply NoDup_app. split; [exact Hids |]. split; [|apply NoDup_singleton].
      intros x Hx Hx'. apply list_elem_of_singleton in Hx'. subst x. exact (Hid Hx).
Qed.

Lemma filter_fresh (us : list Auth.User) (e : string) :
  e ∉ map Auth.user_email us -> filter (fun u => Auth.user_email u = e) us = [].
Proof.
  induction us as [|u us IH]; intros Hfresh; [reflexivity |].
  cbn [map] in Hfresh. apply not_elem_of_cons in Hfresh. destruct Hfresh as [Hne Hrest].
  rewrite filter_cons, decide_False by congruence. apply IH, Hrest.
Qed.

Lemma filter_unique (us : list Auth.User) (e : string) :
  NoDup (map Auth.user_email us) ->
  (length (filter (fun u => Auth.user_email u = e) us) <= 1)%nat.
Proof.
  induction us as [|u us IH]; intros Hnodup; [cbn; lia |].
  cbn [map] in Hnodup. apply NoDup_cons in Hnodup. destruct Hnodup as [Hnotin Hnodup].
  rewrite filter_cons. destruct (decide (Auth.user_email u = e)) as [Heq | Hne].
  - rewrite filter_fresh by (rewrite <- Heq; exact Hnotin). cbn. lia.
  - apply IH, Hnodup.
Qed.

(** X17. Through any registrations, successful or not, no two users share
    an email or an id; so the SELECT of a login finds at most one row, and
    the row it checks the password against is the only one with that
    email. *)
Theorem login_finds_at_most_one (w : World) (e : option string) :
  reachable bcrypt_hash w ->
  NoDup (emails (auth w)) /\ NoDup (ids (auth w)) /\
  (length (Auth.select_by_email (auth w) e) <= 1)%nat.
Proof.
  intros Hreach. destruct (unique_emails w Hreach) as [Hemails Hids].
  split; [exact Hemails |]. split; [exact Hids |].
  destruct e as [e|]; [|cbn; lia]. cbn [Auth.select_by_email].
  destruct (has_nul e); [cbn; lia |]. apply filter_unique, Hemails.
Qed.

(** X18. Registration and login fit together.  With [compareSync]
    accepting the hashes [hash] makes, Postgres answering, JWT_SECRET set
    and not empty, and the email, the hash and the role TEXT values: after
    registering a new email with a password, a login with that email and
    password is answered with the token signed over the new user's id and
    the registered role ("USER" when none was given). *)
Theorem register_then_login (w : World) (e p secret : string) (r : option string) :
  (forall s salt, bcrypt_compare s (bcrypt_hash s salt) = true) ->
  Auth.db_up (auth w) = true ->
  Auth.jwt_secret (auth w) = Some secret -> secret <> "" ->
  has_nul e = false ->
  has_nul (bcrypt_hash p (salt_of w (salt_next w))) = false ->
  has_nul (or_default r "USER") = false ->
  e ∉ emails (auth w) ->
  uuid_of w (uuid_next w) ∉ ids (auth w) ->
  let registered :=
    handle bcrypt_hash (register {| email := Some e; password := Some p; role := r |}) w in
  let token :=
    jwt_sign {| Auth.claim_id := uuid_of w (uuid_next w);
                Auth.claim_role := or_default r "USER" |} secret in
  registered.2 = Returned (res_json (JObject [("message", JString "User registered")])) /\
  (Auth.handle jwt_sign
     (Auth.login bcrypt_compare {| Auth.email := Some e; Auth.password := Some p |})
     (auth registered.1)).2
  = Returned (res_json (JObject [("token", JString token)])).
Proof.
  intros Hbcrypt Hdb Hsecret Hset Hne Hnh Hnr He Hid. cbv zeta. rewrite register_unfold.
  cbn [password email role]. cbv zeta. unfold insert_user. rewrite Hdb, Hne, Hnh, Hnr.
  rewrite (bool_decide_eq_false_2 _ Hid), (bool_decide_eq_false_2 _ He).
  cbn [orb fst snd set_auth auth]. split; [reflexivity |].
  rewrite login_unfold.
  cbn [Auth.email Auth.password Auth.db_up Auth.jwt_secret set_users Auth.select_by_email
       Auth.users].
  unfold text_ok. rewrite Hdb, Hsecret, Hne. cbn [andb negb].
  rewrite filter_app, (filter_fresh _ e He), filter_cons, filter_nil.
  cbn [Auth.user_email]. rewrite decide_True by reflexivity.
  cbn [app Auth.user_password Auth.user_id Auth.user_role]. rewrite Hbcrypt.
  destruct (String.eqb_spec secret "") as [-> | _]; [done | reflexivity].
Qed.

(** X19. The ways a login fails besides 401.  With Postgres down the
    handler throws the query's error.  With no email in the body the
    SELECT matches nothing and the answer is 401.  With a user found and no
    string password, [compareSync] throws; with the right password and
    JWT_SECRET unset, [jwt.sign] throws.  In none of these is a token
    signed or a response with a token sent. *)
Theorem login_failure_modes (a : Auth.World) (e p : option string) (u : Auth.User)
    (pw : string) :
  (Auth.db_up a = false ->
   Auth.handle jwt_sign (Auth.login bcrypt_compare {| Auth.email := e; Auth.password := p |}) a
   = (a, Threw DbError)) /\
  (Auth.db_up a = true ->
   Auth.handle jwt_sign (Auth.login bcrypt_compare {| Auth.email := None; Auth.password := p |}) a
   = (a, Returned (res_sendStatus 401))) /\
  (Auth.db_up a = true -> head (Auth.select_by_email a e) = Some u ->
   Auth.handle jwt_sign (Auth.login bcrypt_compare {| Auth.email := e; Auth.password := None |}) a
   = (a, Threw BcryptError)) /\
  (Auth.db_up a = true -> head (Auth.select_by_email a e) = Some u ->
   bcrypt_compare pw (Auth.user_password u) = true -> Auth.jwt_secret a = None ->
   Auth.handle jwt_sign
     (Auth.login bcrypt_compare {| Auth.email := e; Auth.password := Some pw |}) a
   = (a, Threw JwtError)).
Proof.
  assert (head (Auth.select_by_email a e) = Some u -> text_ok e = true) as Htext.
  { destruct e as [e'|]; cbn; [|discriminate].
    destruct (has_nul e'); [discriminate | reflexivity]. }
  repeat split.
  - intros Hdb. rewrite login_unfold. cbn [Auth.email]. rewrite Hdb. reflexivity.
  - intros Hdb. rewrite login_unfold. cbn [Auth.email text_ok Auth.select_by_email].
    rewrite Hdb. reflexivity.
  - intros Hdb Hu. rewrite login_unfold. cbn [Auth.email Auth.password].
    rewrite Hdb, (Htext Hu). cbn [andb].
    destruct (Auth.select_by_email a e) as [|u' rows]; [discriminate | reflexivity].
  - intros Hdb Hu Hpw Hsecret. rewrite login_unfold. cbn [Auth.email Auth.password].
    rewrite Hdb, (Htext Hu). cbn [andb].
    destruct (Auth.select_by_email a e) as [|u' rows]; [discriminate |].
    injection Hu as ->. rewrite Hpw, Hsecret. reflexivity.
Qed.
End AccountFacts.

(** ** api-gateway: which paths reach which service *)

Section GatewayPathFacts.
Import Gateway GatewayPaths.

Lemma strip_split (p path rest : string) :
  strip p path = Some rest <->
  exists pre, path = pre +:+ rest /\ lower_string pre = lower_string p.
Proof.
  revert path. induction p as [|a p IH]; intros path; cbn [strip].
  - split.
    + intros [= ->]. exists "". split; reflexivity.
    + intros (pre & -> & Hpre). destruct pre; [reflexivity | discriminate].
  - destruct path as [|b path].
    + split; [discriminate |]. intros (pre & Hpath & Hpre).
      destruct pre; discriminate.
    + destruct (Ascii.eqb_spec (lower a) (lower b)) as [Hab | Hab].
      * rewrite IH. split.
        -- intros (pre & -> & Hpre). exists (String b pre).
           split; [reflexivity |]. cbn. rewrite Hpre, Hab. reflexivity.
        -- intros (pre & Hpath & Hpre). destruct pre as [|c pre]; [discriminate |].
           rewrite append_cons in Hpath. injection Hpath as -> ->.
           cbn in Hpre. injection Hpre as _ Hpre. exists pre. split; [reflexivity | exact Hpre].
      * split; [discriminate |]. intros (pre & Hpath & Hpre).
        destruct pre as [|c pre]; [discriminate |].
        rewrite append_cons in Hpath. injection Hpath as -> ->.
        cbn in Hpre. injection Hpre as Hc _. congruence.
Qed.

Lemma mount_matches_split (p path : string) :
  mount_matches p path = true <->
  exists pre rest,
    path = pre +:+ rest /\ lower_string pre = lower_string p /\ segment_end rest.
Proof.
  unfold mount_matches, segment_end. split.
  - destruct (strip p path) as [rest|] eqn:Hstrip; [|discriminate].
    apply strip_split in Hstrip. destruct Hstrip as (pre & -> & Hpre).
    destruct rest as [|c rest'].
    + intros _. exists pre, "". auto.
    + destruct (Ascii.eqb_spec c "/") as [-> | Hc]; [|discriminate].
      intros _. exists pre, (String "/" rest'). eauto.
  - intros (pre & rest & -> & Hpre & Hend).
    assert (strip p (pre +:+ rest) = Some rest) as -> by (apply strip_split; eauto).
    destruct Hend as [-> | (rest' & ->)]; reflexivity.
Qed.

Ltac earlier_mount_misses H q :=
  let Hq := fresh "Hq" in
  assert (mount_matches q _ = false) as Hq
    by (eapply mounts_exclusive; cycle 1; [exact H | vm_compute; discriminate]);
  rewrite Hq; clear Hq.

Lemma route_first_match (p : string) (r : Route) :
  r ∈ gateway_routes -> mount_matches (prefix r) p = true ->
  route gateway_routes p = Some r.
Proof.
  intros Hin Hr. unfold gateway_routes in *.
  repeat (apply elem_of_cons in Hin; destruct Hin as [-> | Hin]);
    [ | | | | inversion Hin ]; cbn [prefix] in Hr; cbn [route prefix].
  - rewrite Hr. reflexivity.
  - earlier_mount_misses Hr "/auth". rewrite Hr. reflexivity.
  - earlier_mount_misses Hr "/auth". earlier_mount_misses Hr "/restaurants".
    rewrite Hr. reflexivity.
  - earlier_mount_misses Hr "/auth". earlier_mount_misses Hr "/restaurants".
    earlier_mount_misses Hr "/orders". rewrite Hr. reflexivity.
Qed.

Lemma gateway_prefix_lower (r : Route) :
  r ∈ gateway_routes -> lower_string (prefix r) = prefix r.
Proof.
  intros Hin. unfold gateway_routes in Hin.
  repeat (apply elem_of_cons in Hin; destruct Hin as [-> | Hin]);
    [ | | | | inversion Hin ]; reflexivity.
Qed.





(** X20. A request goes to a service exactly when its path is that
    service's prefix, in any mix of upper and lower case, alone or followed
    by a slash and anything; so /orders, /Orders/ and /orders/123 go to the
    order service and /ordersx goes nowhere. *)
Theorem route_iff_under_prefix (r : Route) (p : string) :
  r ∈ gateway_routes ->
  (route gateway_routes p = Some r <->
   exists pre rest,
     p = pre +:+ rest /\ lower_string pre = prefix r /\ segment_end rest).
Proof.
  intros Hin. pose proof (gateway_prefix_lower r Hin) as Hlower. split.
  - intros Hroute. destruct (route_Some _ _ _ Hroute) as [_ Hmatch].
    apply mount_matches_split in Hmatch. destruct Hmatch as (pre & rest & Hp & Hpre & Hend).
    exists pre, rest. rewrite <- Hlower. auto.
  - intros (pre & rest & Hp & Hpre & Hend). apply route_first_match; [exact Hin |].
    apply mount_matches_split. exists pre, rest. rewrite Hlower. auto.
Qed.

Lemma lower_slash (c : ascii) : lower c = "/"%char -> c = "/"%char.
Proof. destruct c as [[] [] [] [] [] [] [] []]; vm_compute; congruence. Qed.

Lemma mount_matches_case (p0 p q : string) :
  lower_string p = lower_string q -> mount_matches p0 p = mount_matches p0 q.
Proof.
  unfold mount_matches. revert p q.
  induction p0 as [|a p0 IH]; intros p q Heq; cbn [strip].
  - destruct p as [|c p], q as [|d q]; try discriminate; [reflexivity |].
    cbn in Heq. injection Heq as Hc _.
    destruct (Ascii.eqb_spec c "/") as [-> | Hc'], (Ascii.eqb_spec d "/") as [-> | Hd'];
      try reflexivity.
    + exfalso. apply Hd'. apply lower_slash. rewrite <- Hc. reflexivity.
    + exfalso. apply Hc'. apply lower_slash. rewrite Hc. reflexivity.
  - destruct p as [|c p], q as [|d q]; try discriminate; [reflexivity |].
    cbn in Heq. injection Heq as Hc Hrest. rewrite Hc.
    destruct (Ascii.eqb (lower a) (lower d)); [apply IH, Hrest | reflexivity].
Qed.

(** X21. Routing does not look at the case of letters: two paths that
    differ only in case have the same route, on any table of mounts. *)
Theorem route_ignores_case (routes : list Route) (p q : string) :
  lower_string p = lower_string q -> route routes p = route routes q.
Proof.
  intros Heq. induction routes as [|r routes IH]; [reflexivity |].
  cbn [route]. rewrite (mount_matches_case (prefix r) p q Heq), IH. reflexivity.
Qed.

Lemma gw_step_own (st : GwState) (ev : GwEvent) :
  filter is_own (responses (gw_step st ev))
  = (filter is_own (responses st)
     ++ match own_answer ev with Some a => [a] | None => [] end)%list.
Proof.
  destruct ev as [t id req | t id result]; cbn [gw_step own_answer].
  - destruct (body req); [destruct (route gateway_routes (path req)) |];
      cbn [forward respond responses]; rewrite ?filter_app, ?app_nil_r; reflexivity.
  - destruct (is_inflight id st); [|rewrite app_nil_r; reflexivity].
    cbn [respond settle responses]. rewrite filter_app. f_equal.
    destruct result; reflexivity.
Qed.

(** X22. Over any history the gateway answers by itself exactly the
    requests it does not forward, once each and in the order they arrive:
    with the parser's error for a body the JSON parser refuses, whatever
    the path, and with 404 for a path under no mount; the end of a forward
    adds no answer of the gateway's own.  The status of such an answer is
    400, 413 or 415 (the parser's) or 404. *)
Theorem gateway_own_answers (history : list GwEvent) :
  filter is_own (responses (gw_run history gw_init)) = omap own_answer history /\
  Forall (fun a => exists status,
                     own_status a.2 = Some status /\ status ∈ [400; 413; 415; 404])
         (omap own_answer history).
Proof.
  split.
  - enough (forall st, filter is_own (responses (gw_run history st))
                       = (filter is_own (responses st) ++ omap own_answer history)%list)
      as H by (rewrite H; reflexivity).
    induction history as [|ev history IH]; intros st.
    + cbn. rewrite app_nil_r. reflexivity.
    + unfold gw_run in *. cbn [foldl]. rewrite IH, gw_step_own, <- app_assoc. f_equal.
      change (omap own_answer (ev :: history))
        with (match own_answer ev with
              | Some a => a :: omap own_answer history
              | None => omap own_answer history
              end).
      destruct (own_answer ev); reflexivity.
  - apply Forall_forall. intros [id r] Hin.
    apply list_elem_of_omap in Hin as (ev & _ & Hev).
    destruct ev as [t id' req | t id' result]; cbn [own_answer] in Hev; [|discriminate].
    destruct (body req) as [|f];
      [destruct (route gateway_routes (path req)); [discriminate |] |];
      injection Hev as <- <-; cbn [snd own_status].
    + exists 404. split; [reflexivity | set_solver].
    + exists (fault_status f). split; [reflexivity |]. destruct f; cbn; set_solver.
Qed.
End GatewayPathFacts.

(** ** JSON in the cache *)

Section CacheTextFacts.

(** X23. What GET /restaurants caches it reads back unchanged:
    [JSON.parse(JSON.stringify(v))] is [v] for every value built from null,
    strings, arrays and objects, whatever quotes, backslashes or control
    characters the strings hold; and the text is never the empty string,
    so [if (cache)] takes a stored list for a hit. *)
Theorem cached_text_round_trip (v : JsValue) :
  JSON.parse (JSON.stringify v) = Some v /\
  Restaurant.truthy (Some (JSON.stringify v)) = true.
Proof.
  split; [apply parse_stringify |].
  cbn [Restaurant.truthy]. rewrite stringify_nonempty. reflexivity.
Qed.
End CacheTextFacts.

(** ** The further properties at work on the examples *)

Section RestaurantRunWitnesses.
Import Restaurant RestaurantRuns.

Lemma posts_append_in_order_witness :
  let reqs := [example_body; example_nul_body; {| body_name := None |}] in
  default [] (restaurants (post_all reqs example_no_table))
  = [{| row_id := "a"; row_name := Some "Idli House" |};
     {| row_id := "c"; row_name := None |}] /\
  uuid_next (post_all reqs example_no_table) = 3%nat /\
  redis (post_all reqs example_no_table) = redis example_no_table.
Proof.
  apply (posts_append_in_order [example_body; example_nul_body; {| body_name := None |}]
           example_no_table).
  reflexivity.
Defined.

Lemma post_then_get_lists_new_row_witness :
  (handle get_restaurants (handle (post_restaurants example_body) example_no_table).1).2
  = Returned (res_json (rows_value [{| row_id := "a"; row_name := Some "Idli House" |}])) /\
  (restaurants example_no_table = None ->
   (handle get_restaurants example_no_table).2 = Threw DbError).
Proof.
  apply (post_then_get_lists_new_row example_no_table example_body); reflexivity.
Defined.

Lemma new_restaurant_hidden_while_cached_witness :
  let w2 := (handle (post_restaurants example_body)
               (handle get_restaurants example_world).1).1 in
  (handle get_restaurants (at_time 30 w2)).2 = Returned (res_json (rows_value example_rows)) /\
  (handle get_restaurants (at_time 61 w2)).2
  = Returned (res_json (rows_value
      (example_rows ++ [{| row_id := "a"; row_name := Some "Idli House" |}]))).
Proof.
  split.
  - apply (new_restaurant_hidden_while_cached example_world example_rows example_body 30);
      reflexivity.
  - apply (new_restaurant_hidden_while_cached example_world example_rows example_body 61);
      reflexivity.
Defined.

Lemma get_fails_without_redis_witness :
  handle get_restaurants example_redis_refusing
  = (log (EvClientGet "restaurants") example_redis_refusing, Threw RedisError) /\
  loader_calls (trace (handle get_restaurants example_redis_refusing).1)
  = loader_calls (trace example_redis_refusing) /\
  (step_thread perform example_redis_refusing (store_and_respond example_rows)).2
  = Throw RedisError.
Proof. apply (get_fails_without_redis example_redis_refusing example_rows). reflexivity. Defined.

Lemma get_outcomes_witness :
  (exists rows,
     (handle get_restaurants example_warm).2 = Returned (res_json (rows_value rows))) \/
  (handle get_restaurants example_warm).2 = Threw RedisError \/
  (handle get_restaurants example_warm).2 = Threw DbError.
Proof. apply (get_outcomes example_warm). exact example_warm_reachable. Defined.

Lemma hits_leave_entry_witness :
  let w := (handle get_restaurants example_world).1 in
  (read_at [10; 20; 59] w).2
  = replicate 3 (Returned (res_json (rows_value example_rows))) /\
  redis (read_at [10; 20; 59] w).1 = redis w /\
  loader_calls (trace (read_at [10; 20; 59] w).1) = loader_calls (trace w).
Proof.
  apply (hits_leave_entry [10; 20; 59] (handle get_restaurants example_world).1
           example_entry example_rows).
  - reflexivity.
  - vm_compute. reflexivity.
  - reflexivity.
  - repeat constructor.
Defined.
End RestaurantRunWitnesses.

Section OrderRunWitnesses.
Import Order OrderRuns.

Lemma order_row_without_job_witness :
  (handle post_orders example_queue_down).2 = Threw QueueError /\
  orders (handle post_orders example_queue_down).1
  = Some [{| row_id := "a"; row_status := "PLACED" |}] /\
  queue (handle post_orders example_queue_down).1 = [].
Proof. apply (order_row_without_job example_queue_down); reflexivity. Defined.

Lemma example_orders_reachable :
  reachable (handle post_orders (handle post_orders example_tally).1).1.
Proof. apply reachable_post, reachable_post, reachable_init; reflexivity. Qed.

(** Two requests interleaved: the second one's job is queued before the
    first one's. *)
Lemma example_overtaken_reachable : reachable example_overtaken.
Proof.
  exists (run_schedule perform example_overtaking (example_world, [post_orders; post_orders])).2.
  unfold example_overtaken. rewrite <- surjective_pairing.
  apply running_schedule.
  apply (run_arrive _ [post_orders]), (run_arrive _ []), run_init; reflexivity.
Qed.

Lemma jobs_refer_to_rows_witness :
  row_ids example_overtaken = ["a"; "b"] /\
  job_ids example_overtaken = ["b"; "a"] /\
  Forall (fun j => job_orderId j ∈ row_ids example_overtaken) (queue example_overtaken) /\
  Forall (fun j => job_name j = "order.created") (queue example_overtaken) /\
  Forall (fun r => row_status r = "PLACED") (table example_overtaken).
Proof.
  split; [reflexivity |]. split; [reflexivity |].
  apply jobs_refer_to_rows. exact example_overtaken_reachable.
Defined.

Lemma tally_inj (a b : nat) : tally a = tally b -> a = b.
Proof.
  revert b. induction a as [|a IH]; intros [|b]; cbn; try discriminate; [reflexivity |].
  intros [= H]. f_equal. apply IH, H.
Qed.

Lemma order_ids_distinct_witness :
  NoDup (row_ids (handle post_orders (handle post_orders example_tally).1).1).
Proof.
  apply order_ids_distinct; [exact example_orders_reachable | exact tally_inj].
Defined.

Lemma orders_are_notified_witness :
  Forall (fun job =>
            Notification.processor job
            = {| Notification.line_tag := "[NOTIFICATION-SERVICE] Processing job";
                 Notification.line_name := "order.created";
                 Notification.line_orderId := job_orderId job |} /\
            job_orderId job ∈ row_ids example_overtaken)
         (queue example_overtaken).
Proof. apply orders_are_notified. exact example_overtaken_reachable. Defined.
End OrderRunWitnesses.

Section StartupWitnesses.
Import Startup.

Lemma initDB_resolves_at_first_success_witness :
  initDB (ready_from 3) 10 3000
  = ([QueryFailed 9; Sleep 3000; QueryFailed 8; Sleep 3000; QueryFailed 7; Sleep 3000;
      QueryOk], true) /\
  queries (initDB (ready_from 3) 10 3000).1 = 4%nat /\
  slept (initDB (ready_from 3) 10 3000).1 = 9000.
Proof.
  apply (initDB_resolves_at_first_success (ready_from 3) 10 3 3000).
  - lia.
  - intros i Hi. unfold ready_from. apply Nat.leb_gt. lia.
  - reflexivity.
Defined.

Lemma initDB_exits_after_retries_witness :
  initDB (fun _ => false) 2 3000
  = ([QueryFailed 1; Sleep 3000; QueryFailed 0; Exit 1], false) /\
  queries (initDB (fun _ => false) 2 3000).1 = 2%nat /\
  slept (initDB (fun _ => false) 2 3000).1 = 3000.
Proof.
  apply (initDB_exits_after_retries (fun _ => false) 2 3000).
  - lia.
  - reflexivity.
Defined.
End StartupWitnesses.

Section AccountWitnesses.
Import Accounts.

Lemma register_rejects_known_email_witness :
  let req := {| email := Some "asha@example.com"; password := Some "dal"; role := None |} in
  (exists err, (handle example_hash (register req) example_world).2 = Threw err) /\
  Auth.users (auth (handle example_hash (register req) example_world).1)
  = Auth.users (auth example_world).
Proof.
  apply (register_rejects_known_email example_hash example_world _ "asha@example.com").
  - reflexivity.
  - left.
Defined.

Lemma example_registered_reachable :
  reachable example_hash (handle example_hash (register example_body) empty_world).1.
Proof. apply (reach_register example_hash), (reach_init example_hash). reflexivity. Defined.

Lemma login_finds_at_most_one_witness :
  let w := (handle example_hash (register example_body) empty_world).1 in
  NoDup (emails (auth w)) /\ NoDup (ids (auth w)) /\
  (length (Auth.select_by_email (auth w) (Some "ravi@example.com")) <= 1)%nat.
Proof.
  apply (login_finds_at_most_one example_hash). exact example_registered_reachable.
Defined.

Lemma example_bcrypt (s salt : string) :
  Auth.example_compare s (example_hash s salt) = true.
Proof. apply String.eqb_refl. Qed.

Lemma register_then_login_witness :
  let registered := handle example_hash (register example_body) example_world in
  registered.2 = Returned (res_json (JObject [("message", JString "User registered")])) /\
  (Auth.handle Auth.example_sign
     (Auth.login Auth.example_compare
        {| Auth.email := Some "ravi@example.com"; Auth.password := Some "chutney" |})
     (auth registered.1)).2
  = Returned (res_json (JObject [("token", JString "a.USER.s3cret")])).
Proof.
  apply (register_then_login example_hash Auth.example_compare Auth.example_sign
           example_world "ravi@example.com" "chutney" "s3cret" None).
  - exact example_bcrypt.
  - reflexivity.
  - reflexivity.
  - discriminate.
  - reflexivity.
  - reflexivity.
  - reflexivity.
  - rewrite list_elem_of_In. cbn. intros [H | []]. discriminate.
  - rewrite list_elem_of_In. cbn. intros [H | []]. discriminate.
Defined.

Lemma login_failure_modes_witness :
  Auth.handle Auth.example_sign
    (Auth.login Auth.example_compare {| Auth.email := None; Auth.password := Some "tiffin" |})
    Auth.example_world
  = (Auth.example_world, Returned (res_sendStatus 401)) /\
  Auth.handle Auth.example_sign
    (Auth.login Auth.example_compare
       {| Auth.email := Some "asha@example.com"; Auth.password := None |})
    Auth.example_world
  = (Auth.example_world, Threw BcryptError).
Proof.
  destruct (login_failure_modes Auth.example_compare Auth.example_sign Auth.example_world
              (Some "asha@example.com") (Some "tiffin")
              {| Auth.user_id := "u-1"; Auth.user_email := "asha@example.com";
                 Auth.user_password := "$2a$08$tiffin"; Auth.user_role := "USER" |}
              "tiffin") as (_ & H401 & Hbcrypt & _).
  split; [apply H401 | apply Hbcrypt]; reflexivity.
Defined.
End AccountWitnesses.

Section GatewayPathWitnesses.
Import Gateway GatewayPaths.


Lemma route_iff_under_prefix_witness :
  route gateway_routes "/Orders/123" = Some orders_route <->
  exists pre rest,
    "/Orders/123" = pre +:+ rest /\ lower_string pre = prefix orders_route /\
    segment_end rest.
Proof.
  apply (route_iff_under_prefix orders_route "/Orders/123").
  right. right. left.
Defined.

Lemma route_ignores_case_witness :
  route gateway_routes "/ORDERS/1" = route gateway_routes "/orders/1".
Proof. apply route_ignores_case. reflexivity. Defined.
End GatewayPathWitnesses.
